(** * LogTide JavaScript SDK core: a shallow embedding and its properties

    The development follows the TypeScript sources of [@logtide/core]:
    - [utils/circuit-breaker.ts]   (module [CircuitBreaker])
    - [breadcrumb-buffer.ts]       (module [BreadcrumbBuffer])
    - [utils/w3c-trace-context.ts] (module [TraceContext])
    - [transport/batch.ts]         (module [BatchTransport])
    - [hub.ts]                     (module [Hub])
    - [utils/error-serializer.ts]  (module [ErrorSerializer])
    - [utils/trace-id.ts]          (module [TraceId])
    - [span-manager.ts]            (module [SpanManager])

    Conventions.  JavaScript numbers that the code uses as counters, sizes
    and millisecond timestamps are integers of [Z].  [Date.now()] is an
    explicit argument [now].  An [async] method is modelled by the state it
    leaves once its promise has settled, every call being awaited before the
    next one starts (the way the test-suite drives the classes).  A rejected
    promise or a thrown exception is a value of a result type, which says of
    the value thrown what the code asks of it.  Objects are made of data
    properties: reading one runs no code. *)

From Stdlib Require Import ZArith Lia Bool Ascii String.
From Stdlib Require Strings.Byte.
From stdpp Require Import base tactics option list strings pretty gmap.

Local Open Scope Z_scope.

(* ===================================================================== *)
(** ** utils/circuit-breaker.ts *)
(* ===================================================================== *)

Module CircuitBreaker.

(** [enum CircuitState] *)
Inductive CircuitState := CLOSED | OPEN | HALF_OPEN.

(** The private fields of [class CircuitBreaker]; [lastFailureTime] is
    [number | null]. *)
Record t := mk {
  threshold : Z;
  resetMs : Z;
  state : CircuitState;
  failureCount : Z;
  lastFailureTime : option Z
}.

(** [new CircuitBreaker(threshold, resetMs)] *)
Definition new (threshold resetMs : Z) : t :=
  {| threshold := threshold; resetMs := resetMs;
     state := CLOSED; failureCount := 0; lastFailureTime := None |}.

(** [recordSuccess()] *)
Definition recordSuccess (cb : t) : t :=
  {| threshold := threshold cb; resetMs := resetMs cb;
     state := CLOSED; failureCount := 0;
     lastFailureTime := lastFailureTime cb |}.

(** [recordFailure()], [now] being the value of [Date.now()]. *)
Definition recordFailure (now : Z) (cb : t) : t :=
  let n := failureCount cb + 1 in
  {| threshold := threshold cb; resetMs := resetMs cb;
     state := if threshold cb <=? n then OPEN else state cb;
     failureCount := n;
     lastFailureTime := Some now |}.

(** The left operand of [this.lastFailureTime && ...]: [null] and [0] are
    falsy. *)
Definition truthy (o : option Z) : bool :=
  match o with
  | Some v => negb (v =? 0)
  | None => false
  end.

Definition elapsed_ok (now : Z) (cb : t) : bool :=
  match lastFailureTime cb with
  | Some last => truthy (Some last) && (resetMs cb <=? now - last)
  | None => false
  end.

(** [canAttempt()]: the returned boolean and the breaker afterwards. *)
Definition canAttempt (now : Z) (cb : t) : bool * t :=
  match state cb with
  | CLOSED => (true, cb)
  | OPEN =>
      if elapsed_ok now cb
      then (true, {| threshold := threshold cb; resetMs := resetMs cb;
                     state := HALF_OPEN; failureCount := failureCount cb;
                     lastFailureTime := lastFailureTime cb |})
      else (false, cb)
  | HALF_OPEN => (true, cb)
  end.

(** [getState()] returns the enum's string value. *)
Definition getState (cb : t) : string :=
  match state cb with
  | CLOSED => "CLOSED"
  | OPEN => "OPEN"
  | HALF_OPEN => "HALF_OPEN"
  end.

(** A run of consecutive [recordFailure()] calls, one per clock reading. *)
Definition recordFailures (times : list Z) (cb : t) : t :=
  foldl (fun c now => recordFailure now c) cb times.

(** The method calls a client of the class can make. *)
Inductive call :=
| CallRecordSuccess
| CallRecordFailure (now : Z)
| CallCanAttempt (now : Z).

Definition exec (c : call) (cb : t) : t :=
  match c with
  | CallRecordSuccess => recordSuccess cb
  | CallRecordFailure now => recordFailure now cb
  | CallCanAttempt now => snd (canAttempt now cb)
  end.

(** The states a breaker built by the constructor can reach. *)
Inductive reachable (th rs : Z) : t -> Prop :=
| reach_new : reachable th rs (new th rs)
| reach_step cb c : reachable th rs cb -> reachable th rs (exec c cb).

(** A breaker of threshold 3 that has gone from OPEN to HALF_OPEN. *)
Definition probing : t :=
  exec (CallCanAttempt 2002)
    (exec (CallRecordFailure 1002)
       (exec (CallRecordFailure 1001)
          (exec (CallRecordFailure 1000) (new 3 1000)))).

(** A series of calls, the first of the list first. *)
Definition execAll (calls : list call) (cb : t) : t :=
  foldl (fun c k => exec k c) cb calls.


End CircuitBreaker.

(* ===================================================================== *)
(** ** JavaScript values *)
(* ===================================================================== *)

Module Js.

(** Values of type [unknown]: the primitives [undefined], [null],
    booleans, integral numbers and strings, and objects.  Objects live in a
    store and are named by their address, so that two references can alias
    and a structure can refer back to itself.  Functions, symbols and
    numbers with a fraction are not among the values. *)
Inductive value :=
| VUndefined
| VNull
| VBool (b : bool)
| VNum (n : Z)
| VStr (s : string)
| VRef (addr : nat).

(** What a [throw] or a rejected promise carries, as far as the code looks
    at it: whether the value is an [Error] instance ([instanceof Error]),
    and what converting the value itself ([String(v)]) or its [message]
    (in a template literal) to a string gives.  The conversion runs the
    [toString] and [valueOf] of an object and can throw in its turn:
    [String(Object.create(null))] and a symbol in a template literal throw a
    [TypeError]. *)
Inductive thrown :=
| ErrorInstance (message : conversion)
| NotAnError (text : conversion)
with conversion :=
| Text (s : string)
| Raises (err : thrown).

(** [new Error(message)] and its subclasses made from a string. *)
Definition new_Error (message : string) : thrown := ErrorInstance (Text message).

(** The outcome of a call that can throw, or of a promise that can reject. *)
Inductive result (A : Type) :=
| Ok (a : A)
| Throw (err : thrown).
Arguments Ok {A} a.
Arguments Throw {A} err.

(** ToBoolean. *)
Definition truthy (v : value) : bool :=
  match v with
  | VUndefined | VNull => false
  | VBool b => b
  | VNum n => negb (n =? 0)
  | VStr s => negb (String.eqb s "")
  | VRef _ => true
  end.

(** [String(v)] on a primitive.  [Number::toString] prints an integer of
    magnitude below [10^21] with all its decimal digits; from there on it
    uses exponent notation, which is left to [exponential]. *)
Definition String_of (exponential : Z → string) (v : value) : string :=
  match v with
  | VUndefined => "undefined"
  | VNull => "null"
  | VBool true => "true"
  | VBool false => "false"
  | VNum n => if Z.abs n <? 10 ^ 21 then pretty n else exponential n
  | VStr s => s
  | VRef _ => "[object Object]"
  end.

End Js.

(* ===================================================================== *)
(** ** @logtide/types *)
(* ===================================================================== *)

Module Types.

Inductive BreadcrumbType :=
| BcHttp | BcNavigation | BcUi | BcConsole | BcError | BcQuery | BcCustom.

Inductive BreadcrumbLevel := BlDebug | BlInfo | BlWarn | BlError.

(** [interface Breadcrumb] *)
Record Breadcrumb := mkBreadcrumb {
  bc_type : BreadcrumbType;
  bc_category : option string;
  bc_message : string;
  bc_level : option BreadcrumbLevel;
  bc_timestamp : Z;
  bc_data : option (gmap string Js.value)
}.

Inductive LogLevel := LvDebug | LvInfo | LvWarn | LvError | LvCritical.

(** [interface InternalLogEntry] *)
Record InternalLogEntry := mkLog {
  log_service : string;
  log_level : LogLevel;
  log_message : string;
  log_time : string;
  log_metadata : option (gmap string Js.value);
  log_trace_id : option string;
  log_span_id : option string;
  log_breadcrumbs : option (list Breadcrumb)
}.

Inductive SpanStatus := StOk | StError | StUnset.

(** [interface Span] *)
Record Span := mkSpan {
  span_traceId : string;
  span_spanId : string;
  span_parentSpanId : option string;
  span_name : string;
  span_status : SpanStatus;
  span_startTime : Z;
  span_endTime : option Z;
  span_attributes : gmap string Js.value
}.

End Types.

(* ===================================================================== *)
(** ** breadcrumb-buffer.ts *)
(* ===================================================================== *)

Module BreadcrumbBuffer.

(** [class BreadcrumbBuffer]: the array and its bound. *)
Record t (A : Type) := mk {
  buffer : list A;
  maxSize : Z
}.
Arguments mk {A} buffer maxSize.
Arguments buffer {A} _.
Arguments maxSize {A} _.

(** [new BreadcrumbBuffer(maxSize = 100)] *)
Definition new {A} (maxSize : option Z) : t A :=
  {| buffer := []; maxSize := default 100 maxSize |}.

(** [Array.prototype.shift]: drops the first element; an empty array stays
    empty. *)
Definition shift {A} (l : list A) : list A := tail l.

(** [add(breadcrumb)] *)
Definition add {A} (breadcrumb : A) (b : t A) : t A :=
  let buf :=
    if maxSize b <=? Z.of_nat (length (buffer b))
    then shift (buffer b) else buffer b in
  {| buffer := buf ++ [breadcrumb]; maxSize := maxSize b |}.

(** [getAll()] copies the array. *)
Definition getAll {A} (b : t A) : list A := buffer b.

(** [clear()] *)
Definition clear {A} (b : t A) : t A :=
  {| buffer := []; maxSize := maxSize b |}.

(** [get length()] *)
Definition length {A} (b : t A) : Z := Z.of_nat (List.length (buffer b)).

(** Successive [add] calls, oldest first. *)
Definition addAll {A} (xs : list A) (b : t A) : t A :=
  foldl (fun acc x => add x acc) b xs.

(** The calls that change a buffer. *)
Inductive op (A : Type) :=
| OpAdd (x : A)
| OpClear.
Arguments OpAdd {A} x.
Arguments OpClear {A}.

Definition run {A} (ops : list (op A)) (b : t A) : t A :=
  foldl (fun acc o => match o with OpAdd x => add x acc | OpClear => clear acc end)
        b ops.


End BreadcrumbBuffer.

(* ===================================================================== *)
(** ** utils/w3c-trace-context.ts *)
(* ===================================================================== *)

Module TraceContext.

(** Strings are sequences of code units; a character of [ascii] stands for
    the code unit of the same number. *)

(** [interface TraceContext] *)
Record TraceContext := mk {
  version : string;
  traceId : string;
  parentSpanId : string;
  sampled : bool
}.

Definition code (c : ascii) : N := N_of_ascii c.

(** The character class [[0-9a-f]]. *)
Definition is_hex_lower (c : ascii) : bool :=
  ((48 <=? code c) && (code c <=? 57) || (97 <=? code c) && (code c <=? 102))%N.

(** [([0-9a-f]{n})] at the head of [s]: the captured group and what
    follows it. *)
Fixpoint hex_group (n : nat) (s : string) : option (string * string) :=
  match n with
  | O => Some (EmptyString, s)
  | S k =>
      match s with
      | String c r =>
          if is_hex_lower c
          then '(g, rest) ← hex_group k r; Some (String c g, rest)
          else None
      | EmptyString => None
      end
  end.

(** The literal [-]. *)
Definition dash (s : string) : option string :=
  match s with
  | String c r => if (code c =? 45)%N then Some r else None
  | EmptyString => None
  end.

(** [s.match(TRACEPARENT_REGEX)] for
    [/^([0-9a-f]{2})-([0-9a-f]{32})-([0-9a-f]{16})-([0-9a-f]{2})$/]:
    the four captured groups.  The pattern is anchored at both ends and
    every piece has a fixed width, so there is one way to match. *)
Definition match_TRACEPARENT_REGEX (s : string)
  : option (string * string * string * string) :=
  '(g1, r) ← hex_group 2 s; r ← dash r;
  '(g2, r) ← hex_group 32 r; r ← dash r;
  '(g3, r) ← hex_group 16 r; r ← dash r;
  '(g4, r) ← hex_group 2 r;
  match r with
  | EmptyString => Some (g1, g2, g3, g4)
  | String _ _ => None
  end.

(** White space and line terminators among the code units below 256. *)
Definition is_whitespace (c : ascii) : bool :=
  ((9 <=? code c) && (code c <=? 13) || (code c =? 32) || (code c =? 160))%N.

Fixpoint trimStart (s : string) : string :=
  match s with
  | String c r => if is_whitespace c then trimStart r else s
  | EmptyString => EmptyString
  end.

Fixpoint trimEnd (s : string) : string :=
  match s with
  | String c r =>
      match trimEnd r with
      | EmptyString => if is_whitespace c then EmptyString else String c EmptyString
      | r' => String c r'
      end
  | EmptyString => EmptyString
  end.

(** [String.prototype.trim] *)
Definition trim (s : string) : string := trimEnd (trimStart s).

(** The value of a hexadecimal digit, in either case. *)
Definition hex_digit (c : ascii) : option Z :=
  let n := code c in
  if ((48 <=? n) && (n <=? 57))%N then Some (Z.of_N n - 48)
  else if ((97 <=? n) && (n <=? 102))%N then Some (Z.of_N n - 87)
  else if ((65 <=? n) && (n <=? 70))%N then Some (Z.of_N n - 55)
  else None.

Fixpoint parse_hex_digits (acc : option Z) (s : string) : option Z :=
  match s with
  | String c r =>
      match hex_digit c with
      | Some d => parse_hex_digits (Some (16 * default 0 acc + d)) r
      | None => acc
      end
  | EmptyString => acc
  end.

(** [parseInt(s, 16)] on a string that starts neither with white space, a
    sign nor [0x]: the longest prefix of hexadecimal digits, [None] (NaN)
    when it is empty. *)
Definition parseInt16 (s : string) : option Z := parse_hex_digits None s.

(** [(n & 0x01) === 1]; [NaN & 1] is [0]. *)
Definition low_bit_set (n : option Z) : bool :=
  match n with
  | Some v => Z.land v 1 =? 1
  | None => false
  end.

(** [parseTraceparent(header)]; [None] is [null]. *)
Definition parseTraceparent (header : string) : option TraceContext :=
  match match_TRACEPARENT_REGEX (trim header) with
  | None => None
  | Some (m1, m2, m3, m4) =>
      Some {| version := m1; traceId := m2; parentSpanId := m3;
              sampled := low_bit_set (parseInt16 m4) |}
  end.

(** [createTraceparent(traceId, spanId, sampled)] *)
Definition createTraceparent (traceId spanId : string) (sampled : bool) : string :=
  let flags := if sampled then "01" else "00" in
  "00-" +:+ traceId +:+ "-" +:+ spanId +:+ "-" +:+ flags.

(** A string of exactly [n] characters of [[0-9a-f]]. *)
Fixpoint all_hex_lower (s : string) : bool :=
  match s with
  | String c r => is_hex_lower c && all_hex_lower r
  | EmptyString => true
  end.

Definition valid_hex_id (n : nat) (s : string) : Prop :=
  String.length s = n ∧ all_hex_lower s = true.

(** A string of white space only. *)
Fixpoint all_whitespace (s : string) : bool :=
  match s with
  | String c r => is_whitespace c && all_whitespace r
  | EmptyString => true
  end.


End TraceContext.

(* ===================================================================== *)
(** ** transport/batch.ts *)
(* ===================================================================== *)

Module BatchTransport.
Import Js Types.

(** What the class needs from its host: [Date.now()] and the passing of
    [ms] milliseconds while [await new Promise(r => setTimeout(r, ms))] is
    pending.  [Env] is the state of everything outside the class, the inner
    transport included. *)
Record Host (Env : Type) := mkHost {
  clock : Env → Z;
  sleep : Z → Env → Env
}.
Arguments clock {Env} _ _.
Arguments sleep {Env} _ _ _.

(** [interface Transport]: a call settles its promise ([Ok] resolved,
    [Throw] rejected) and leaves the outside world in a new state.
    [sendSpans] is optional. *)
Record Transport (Env : Type) := mkTransport {
  t_sendLogs : list InternalLogEntry → Env → result unit * Env;
  t_sendSpans : option (list Span → Env → result unit * Env);
  t_flush : Env → result unit * Env
}.
Arguments t_sendLogs {Env} _ _ _.
Arguments t_sendSpans {Env} _.
Arguments t_flush {Env} _ _.

(** [interface BatchTransportOptions] *)
Record BatchTransportOptions (Env : Type) := mkOptions {
  o_inner : Transport Env;
  o_batchSize : option Z;
  o_flushInterval : option Z;
  o_maxBufferSize : option Z;
  o_maxRetries : option Z;
  o_retryDelayMs : option Z;
  o_circuitBreakerThreshold : option Z;
  o_circuitBreakerResetMs : option Z;
  o_debug : option bool
}.
Arguments o_inner {Env} _.
Arguments o_batchSize {Env} _.
Arguments o_flushInterval {Env} _.
Arguments o_maxBufferSize {Env} _.
Arguments o_maxRetries {Env} _.
Arguments o_retryDelayMs {Env} _.
Arguments o_circuitBreakerThreshold {Env} _.
Arguments o_circuitBreakerResetMs {Env} _.
Arguments o_debug {Env} _.

(** The private fields of [class BatchTransport].  [timer] holds the period
    of the armed interval, [None] once cleared.  What [debug] makes the
    class print on the console is left out; building the text to print is
    not, where it converts a caught value ([debugMessage] below). *)
Record t (Env : Type) := mk {
  logBuffer : list InternalLogEntry;
  spanBuffer : list Span;
  timer : option Z;
  inner : Transport Env;
  batchSize : Z;
  maxBufferSize : Z;
  maxRetries : Z;
  retryDelayMs : Z;
  circuitBreaker : CircuitBreaker.t;
  debug : bool
}.
Arguments mk {Env} _ _ _ _ _ _ _ _ _ _.
Arguments logBuffer {Env} _.
Arguments spanBuffer {Env} _.
Arguments timer {Env} _.
Arguments inner {Env} _.
Arguments batchSize {Env} _.
Arguments maxBufferSize {Env} _.
Arguments maxRetries {Env} _.
Arguments retryDelayMs {Env} _.
Arguments circuitBreaker {Env} _.
Arguments debug {Env} _.

Section Model.
Context {Env : Type} (host : Host Env).

(** The constructor; [a ?? b] is [default b a]. *)
Definition new (options : BatchTransportOptions Env) : t Env :=
  {| logBuffer := []; spanBuffer := [];
     timer := Some (default 5000 (o_flushInterval options));
     inner := o_inner options;
     batchSize := default 100 (o_batchSize options);
     maxBufferSize := default 10000 (o_maxBufferSize options);
     maxRetries := default 3 (o_maxRetries options);
     retryDelayMs := default 1000 (o_retryDelayMs options);
     circuitBreaker :=
       CircuitBreaker.new (default 5 (o_circuitBreakerThreshold options))
                          (default 30000 (o_circuitBreakerResetMs options));
     debug := default false (o_debug options) |}.

Definition set_logBuffer (l : list InternalLogEntry) (self : t Env) : t Env :=
  mk l (spanBuffer self) (timer self) (inner self) (batchSize self)
     (maxBufferSize self) (maxRetries self) (retryDelayMs self)
     (circuitBreaker self) (debug self).

Definition set_spanBuffer (l : list Span) (self : t Env) : t Env :=
  mk (logBuffer self) l (timer self) (inner self) (batchSize self)
     (maxBufferSize self) (maxRetries self) (retryDelayMs self)
     (circuitBreaker self) (debug self).

Definition set_circuitBreaker (cb : CircuitBreaker.t) (self : t Env) : t Env :=
  mk (logBuffer self) (spanBuffer self) (timer self) (inner self)
     (batchSize self) (maxBufferSize self) (maxRetries self)
     (retryDelayMs self) cb (debug self).

Definition set_timer (tm : option Z) (self : t Env) : t Env :=
  mk (logBuffer self) (spanBuffer self) tm (inner self) (batchSize self)
     (maxBufferSize self) (maxRetries self) (retryDelayMs self)
     (circuitBreaker self) (debug self).

(** An [async] method: from the object and the world before the call to the
    way its promise settles and the object and the world after. *)
Definition M (A : Type) : Type := t Env * Env → result A * (t Env * Env).

Definition ret {A} (a : A) : M A := fun s => (Ok a, s).

(** [await m; k]: a rejection of [m] is rethrown. *)
Definition bind {A B} (m : M A) (k : A → M B) : M B :=
  fun s =>
    match m s with
    | (Ok a, s') => k a s'
    | (Throw e, s') => (Throw e, s')
    end.

(** One iteration of the loops of [sendLogs] and [sendSpans]: a full buffer
    drops the incoming item. *)
Definition pushLog (self : t Env) (log : InternalLogEntry) : t Env :=
  if maxBufferSize self <=? Z.of_nat (length (logBuffer self))
  then self
  else set_logBuffer (logBuffer self ++ [log]) self.

Definition pushSpan (self : t Env) (span : Span) : t Env :=
  if maxBufferSize self <=? Z.of_nat (length (spanBuffer self))
  then self
  else set_spanBuffer (spanBuffer self ++ [span]) self.

(** [error instanceof Error ? error : new Error(String(error))]: the
    [message] of the [lastError] obtained, unless [String(error)] throws. *)
Definition toLastError (error : thrown) : result conversion :=
  match error with
  | ErrorInstance message => Ok message
  | NotAnError (Text s) => Ok (Text s)
  | NotAnError (Raises err) => Throw err
  end.

(** [`... ${lastError.message}`] in a debug message: the only part of the
    debug output that can do more than print. *)
Definition debugMessage (debug : bool) (message : conversion) : result unit :=
  if debug then
    match message with
    | Text _ => Ok ()
    | Raises err => Throw err
    end
  else Ok ().

(** How the loop of [sendWithRetry] ends: through [return], or with the
    condition [attempt <= this.maxRetries] false and [lastError] as it then
    stands ([None] for [null]). *)
Inductive loopExit :=
| Returned
| Exhausted (lastError : option conversion).

(** The loop of [sendWithRetry], entered with [attempt] and [lastError] and
    with [remaining] iterations to go before [attempt <= this.maxRetries]
    fails.  What the [catch] block throws leaves the loop and the method. *)
Fixpoint retryLoop (fn : Env → result unit * Env) (remaining : nat)
    (attempt : Z) (lastError : option conversion) (self : t Env) (e : Env)
  : result loopExit * (t Env * Env) :=
  match remaining with
  | O => (Ok (Exhausted lastError), (self, e))
  | S k =>
      match fn e with
      | (Ok _, e1) =>
          (Ok Returned,
           (set_circuitBreaker
              (CircuitBreaker.recordSuccess (circuitBreaker self)) self, e1))
      | (Throw error, e1) =>
          match toLastError error with
          | Throw err => (Throw err, (self, e1))
          | Ok message =>
              if attempt <? maxRetries self then
                match debugMessage (debug self) message with
                | Throw err => (Throw err, (self, e1))
                | Ok _ =>
                    retryLoop fn k (attempt + 1) (Some message) self
                      (sleep host (retryDelayMs self * 2 ^ attempt) e1)
                end
              else retryLoop fn k (attempt + 1) (Some message) self e1
          end
      end
  end.

(** [sendWithRetry(fn, count, type)]; [count] and [type] only feed the debug
    messages.  [attempt] runs over [0 .. maxRetries], which is
    [maxRetries + 1] iterations, none when that is negative.  After the
    loop, [lastError?.message] of a [null] prints as [undefined]. *)
Definition sendWithRetry (fn : Env → result unit * Env) : M unit :=
  fun '(self, e) =>
    match retryLoop fn (Z.to_nat (maxRetries self + 1)) 0 None self e with
    | (Throw err, s') => (Throw err, s')
    | (Ok Returned, s') => (Ok (), s')
    | (Ok (Exhausted lastError), (self', e')) =>
        let self'' :=
          set_circuitBreaker
            (CircuitBreaker.recordFailure (clock host e') (circuitBreaker self'))
            self' in
        match debugMessage (debug self')
                (default (Text "undefined") lastError) with
        | Throw err => (Throw err, (self'', e'))
        | Ok _ => (Ok (), (self'', e'))
        end
    end.

(** [flush()] *)
Definition flush : M unit :=
  fun '(self, e) =>
    let '(ok, cb) :=
      CircuitBreaker.canAttempt (clock host e) (circuitBreaker self) in
    let self := set_circuitBreaker cb self in
    if negb ok then (Ok (), (self, e))
    else
      let logs := logBuffer self in
      let spans := spanBuffer self in
      let self := set_spanBuffer [] (set_logBuffer [] self) in
      bind
        (if 0 <? Z.of_nat (length logs)
         then sendWithRetry (t_sendLogs (inner self) logs)
         else ret ())
        (fun _ =>
           match t_sendSpans (inner self) with
           | Some sendSpans =>
               if 0 <? Z.of_nat (length spans)
               then sendWithRetry (sendSpans spans)
               else ret ()
           | None => ret ()
           end)
        (self, e).

(** [sendLogs(logs)] *)
Definition sendLogs (logs : list InternalLogEntry) : M unit :=
  fun '(self, e) =>
    let self := foldl pushLog self logs in
    if batchSize self <=? Z.of_nat (length (logBuffer self))
    then flush (self, e)
    else (Ok (), (self, e)).

(** [sendSpans(spans)] *)
Definition sendSpans (spans : list Span) : M unit :=
  fun '(self, e) =>
    let self := foldl pushSpan self spans in
    if batchSize self <=? Z.of_nat (length (spanBuffer self))
    then flush (self, e)
    else (Ok (), (self, e)).

(** [destroy()] *)
Definition destroy (self : t Env) : t Env := set_timer None self.

(** A series of awaited [sendLogs([log])] calls, one entry each. *)
Fixpoint appendEach (logs : list InternalLogEntry) (s : t Env * Env)
  : t Env * Env :=
  match logs with
  | [] => s
  | log :: rest => appendEach rest (snd (sendLogs [log] s))
  end.

(** The states of a transport built from [options]: the methods are
    called one after the other ([flush] by the caller or by the timer), and
    the world moves on between the calls.  The states between two
    iterations of the loops of [sendLogs] and [sendSpans] are included. *)
Inductive reachable (options : BatchTransportOptions Env)
  : t Env * Env → Prop :=
| reach_new e : reachable options (new options, e)
| reach_pushLog s log :
    reachable options s → reachable options (pushLog s.1 log, s.2)
| reach_pushSpan s span :
    reachable options s → reachable options (pushSpan s.1 span, s.2)
| reach_sendLogs s logs :
    reachable options s → reachable options (sendLogs logs s).2
| reach_sendSpans s spans :
    reachable options s → reachable options (sendSpans spans s).2
| reach_flush s : reachable options s → reachable options (flush s).2
| reach_destroy s : reachable options s → reachable options (destroy s.1, s.2)
| reach_world s e' : reachable options s → reachable options (s.1, e').


End Model.

(** *** An inner transport that records its calls

    The counterpart of [makeMockInner] in [tests/transport-batch.test.ts]:
    every call is counted, a successful one keeps its batch, and
    [shouldFail] makes every call reject. *)
Record MockInner := mkMock {
  now : Z;
  sentLogs : list (list InternalLogEntry);
  sentSpans : list (list Span);
  shouldFail : bool;
  callCount : Z
}.

Definition mock_sendLogs (logs : list InternalLogEntry) (m : MockInner)
  : result unit * MockInner :=
  let m1 := mkMock (now m) (sentLogs m) (sentSpans m) (shouldFail m)
                   (callCount m + 1) in
  if shouldFail m then (Throw (new_Error "send failed"), m1)
  else (Ok (), mkMock (now m1) (sentLogs m1 ++ [logs]) (sentSpans m1)
                      (shouldFail m1) (callCount m1)).

Definition mock_sendSpans (spans : list Span) (m : MockInner)
  : result unit * MockInner :=
  let m1 := mkMock (now m) (sentLogs m) (sentSpans m) (shouldFail m)
                   (callCount m + 1) in
  if shouldFail m then (Throw (new_Error "send failed"), m1)
  else (Ok (), mkMock (now m1) (sentLogs m1) (sentSpans m1 ++ [spans])
                      (shouldFail m1) (callCount m1)).

Definition mockInner : Transport MockInner :=
  {| t_sendLogs := mock_sendLogs;
     t_sendSpans := Some mock_sendSpans;
     t_flush := fun m => (Ok (), m) |}.

(** The same transport without the optional [sendSpans]. *)
Definition mockInnerLogsOnly : Transport MockInner :=
  {| t_sendLogs := mock_sendLogs;
     t_sendSpans := None;
     t_flush := fun m => (Ok (), m) |}.

(** The clock of the mock's world advances by the time slept. *)
Definition mockHost : Host MockInner :=
  {| clock := now;
     sleep := fun ms m =>
       mkMock (now m + ms) (sentLogs m) (sentSpans m) (shouldFail m)
              (callCount m) |}.

Definition mockWorld (fail : bool) : MockInner :=
  mkMock 1700000000000 [] [] fail 0.

(** [makeLog(msg)] of the test-suite. *)
Definition makeLog (msg : string) : InternalLogEntry :=
  mkLog "test" LvInfo msg "2024-01-01T00:00:00.000Z" None None None None.

(** [makeSpan(name)] of the test-suite. *)
Definition makeSpan (name : string) : Span :=
  mkSpan "aaaa" "bbbb" None name StOk 1700000000000 (Some 1700000000100) ∅.

(** *** Counting the calls of an arbitrary send function

    [counted fn] behaves as [fn] and counts its invocations in a second
    component of the world. *)
Definition counted {Env} (fn : Env → result unit * Env)
  : Env * Z → result unit * (Env * Z) :=
  fun '(e, n) => let '(r, e') := fn e in (r, (e', n + 1)).

Definition countedHost {Env} (host : Host Env) : Host (Env * Z) :=
  {| clock := fun '(e, _) => clock host e;
     sleep := fun ms '(e, n) => (sleep host ms e, n) |}.

(** An inner transport that logs each batch it is asked to send, next to
    what the wrapped transport does with it. *)
Inductive call :=
| CallSendLogs (batch : list InternalLogEntry)
| CallSendSpans (batch : list Span)
| CallFlush.

Definition spied {Env} (inner : Transport Env) : Transport (Env * list call) :=
  {| t_sendLogs := fun logs '(e, cs) =>
       let '(r, e') := t_sendLogs inner logs e in
       (r, (e', cs ++ [CallSendLogs logs]));
     t_sendSpans :=
       match t_sendSpans inner with
       | Some f => Some (fun spans '(e, cs) =>
           let '(r, e') := f spans e in
           (r, (e', cs ++ [CallSendSpans spans])))
       | None => None
       end;
     t_flush := fun '(e, cs) =>
       let '(r, e') := t_flush inner e in (r, (e', cs ++ [CallFlush])) |}.

Definition spiedHost {Env} (host : Host Env) : Host (Env * list call) :=
  {| clock := fun '(e, _) => clock host e;
     sleep := fun ms '(e, cs) => (sleep host ms e, cs) |}.

Definition spiedOptions {Env} (o : BatchTransportOptions Env)
  : BatchTransportOptions (Env * list call) :=
  mkOptions _ (spied (o_inner o)) (o_batchSize o) (o_flushInterval o)
    (o_maxBufferSize o) (o_maxRetries o) (o_retryDelayMs o)
    (o_circuitBreakerThreshold o) (o_circuitBreakerResetMs o) (o_debug o).

(** The options of the test-suite: 'should retry on failure then give up',
    and 'should drop logs when buffer is full' for any [batchSize]. *)
Definition retryOptions : BatchTransportOptions MockInner :=
  mkOptions _ mockInner (Some 2) (Some 999999) None (Some 1) (Some 1)
    None None None.

Definition dropOptions (batchSize : option Z) : BatchTransportOptions MockInner :=
  mkOptions _ mockInner batchSize (Some 999999) (Some 2) (Some 0) None
    None None None.

(** A buffer smaller than a batch, and a failing send that is retried. *)
Definition smallBufferOptions : BatchTransportOptions MockInner :=
  mkOptions _ mockInner (Some 2) (Some 999999) (Some 1) (Some 0) None
    None None None.


Definition noAttemptOptions : BatchTransportOptions MockInner :=
  mkOptions _ mockInner (Some 2) (Some 999999) None (Some (-1)) None
    None None None.

(** A send function that always rejects, whatever the world. *)
Definition alwaysFails (m : MockInner) : result unit * MockInner :=
  (Throw (new_Error "send failed"), m).

(** The rejection values that the [catch] block of [sendWithRetry] gets
    past: an [Error] instance, or a value that [String()] converts; in
    debug mode the [message] of the error has to convert as well. *)
Definition convertible (debug : bool) (error : thrown) : bool :=
  match error with
  | ErrorInstance (Text _) => true
  | ErrorInstance (Raises _) => negb debug
  | NotAnError (Text _) => true
  | NotAnError (Raises _) => false
  end.

(** A send function that always rejects with [Object.create(null)], which
    [String()] cannot convert. *)
Definition rejectsWithBareObject (m : MockInner) : result unit * MockInner :=
  (Throw (NotAnError
            (Raises (new_Error "Cannot convert object to primitive value"))), m).

Definition countingOptions : BatchTransportOptions (MockInner * Z) :=
  mkOptions _ (mkTransport _ (fun _ => counted alwaysFails) None
                 (counted alwaysFails))
    None None None (Some 1) None None None None.

Definition countingOptionsBelow : BatchTransportOptions (MockInner * Z) :=
  mkOptions _ (mkTransport _ (fun _ => counted alwaysFails) None
                 (counted alwaysFails))
    None None None (Some (-2)) None None None None.

(** *** Series of calls on a transport *)

Inductive op :=
| OpSendLogs (logs : list InternalLogEntry)
| OpSendSpans (spans : list Span)
| OpFlush.

Definition runOp {Env} (host : Host Env) (o : op) (s : t Env * Env)
  : t Env * Env :=
  match o with
  | OpSendLogs logs => (sendLogs host logs s).2
  | OpSendSpans spans => (sendSpans host spans s).2
  | OpFlush => (flush host s).2
  end.

(** Each call is awaited before the next one is made. *)
Definition runOps {Env} (host : Host Env) (ops : list op) (s : t Env * Env)
  : t Env * Env :=
  foldl (fun acc o => runOp host o acc) s ops.

(** The log entries (resp. spans) that a series of calls hands to the
    transport, in order. *)
Definition handedLogs (ops : list op) : list InternalLogEntry :=
  concat (omap (fun o => match o with OpSendLogs l => Some l | _ => None end) ops).

Definition handedSpans (ops : list op) : list Span :=
  concat (omap (fun o => match o with OpSendSpans l => Some l | _ => None end) ops).

(** The log entries (resp. spans) of the batches that the inner transport
    was asked to send, in order. *)
Definition sentLogEntries (cs : list call) : list InternalLogEntry :=
  concat (omap (fun c => match c with CallSendLogs b => Some b | _ => None end) cs).

Definition sentSpanEntries (cs : list call) : list Span :=
  concat (omap (fun c => match c with CallSendSpans b => Some b | _ => None end) cs).

(** A host that keeps the list of the delays slept, and a send function
    carried over to its worlds. *)
Definition sleepLogHost {Env} (host : Host Env) : Host (Env * list Z) :=
  {| clock := fun '(e, _) => clock host e;
     sleep := fun ms '(e, l) => (sleep host ms e, l ++ [ms]) |}.

Definition carried {Env S} (fn : Env → result unit * Env)
  : Env * S → result unit * (Env * S) :=
  fun '(e, x) => let '(r, e') := fn e in (r, (e', x)).

(** [retryDelayMs * Math.pow(2, attempt)] for [attempt = 0 .. n - 1]. *)
Definition backoffDelays (retryDelayMs : Z) (n : nat) : list Z :=
  map (fun i => retryDelayMs * 2 ^ Z.of_nat i) (seq 0 n).


(** An inner transport that accepts every batch, in a world where
    nothing happens. *)
Definition acceptingInner : Transport unit :=
  {| t_sendLogs := fun _ e => (Ok (), e);
     t_sendSpans := Some (fun _ e => (Ok (), e));
     t_flush := fun e => (Ok (), e) |}.

Definition stillHost : Host unit :=
  {| clock := fun _ => 1700000000000; sleep := fun _ e => e |}.

Definition acceptingOptions : BatchTransportOptions unit :=
  mkOptions _ acceptingInner (Some 2) (Some 999999) (Some 4) (Some 0) None
    None None None.

End BatchTransport.

(* ===================================================================== *)
(** ** scope.ts *)
(* ===================================================================== *)

Module Scope.
Import Js Types.

(** Modelled from the spec: [class Scope] ([scope.ts] is not among the
    sources).  A scope owns a trace id, an optional active span id, tags,
    extras, a bounded breadcrumb sequence (a [BreadcrumbBuffer] of the
    default capacity) and the finished spans collected for it. *)
Record t := mk {
  traceId : string;
  spanId : option string;
  tags : gmap string string;
  extras : gmap string Js.value;
  breadcrumbs : BreadcrumbBuffer.t Breadcrumb;
  spans : list Span
}.

(** Modelled from the spec: [new Scope(traceId)], created with a
    caller-supplied trace id and nothing else. *)
Definition new (traceId : string) : t :=
  {| traceId := traceId; spanId := None; tags := ∅; extras := ∅;
     breadcrumbs := BreadcrumbBuffer.new None; spans := [] |}.

(** Modelled from the spec: [addBreadcrumb(b)] appends respecting the
    bound. *)
Definition addBreadcrumb (b : Breadcrumb) (s : t) : t :=
  {| traceId := traceId s; spanId := spanId s; tags := tags s;
     extras := extras s;
     breadcrumbs := BreadcrumbBuffer.add b (breadcrumbs s);
     spans := spans s |}.

(** Modelled from the spec: [getBreadcrumbs()] returns a snapshot copy. *)
Definition getBreadcrumbs (s : t) : list Breadcrumb :=
  BreadcrumbBuffer.getAll (breadcrumbs s).

End Scope.

(* ===================================================================== *)
(** ** hub.ts *)
(* ===================================================================== *)

Module Hub.
Import Js Types.

(** [class LogtideClient] ([client.ts]) is not among the sources; the hub
    only forwards to it.  A client is a state of type [Client], and the
    methods the hub calls are taken as they come: each may change the
    client and the scope it is handed, and may throw. *)
Record ClientApi (Client Options : Type) := mkApi {
  client_new : Options → Client;
  client_captureError :
    Js.value → option (gmap string Js.value) → Scope.t → Client →
    result unit * (Scope.t * Client);
  client_captureLog :
    string → string → option (gmap string Js.value) → Scope.t → Client →
    result unit * (Scope.t * Client);
  client_addBreadcrumb : Breadcrumb → Client → result unit * Client
}.
Arguments client_new {Client Options} _ _.
Arguments client_captureError {Client Options} _ _ _ _ _.
Arguments client_captureLog {Client Options} _ _ _ _ _ _.
Arguments client_addBreadcrumb {Client Options} _ _ _.

(** The private fields of [class Hub]; [client] is [LogtideClient | null]. *)
Record t (Client : Type) := mk {
  client : option Client;
  globalScope : Scope.t
}.
Arguments mk {Client} _ _.
Arguments client {Client} _.
Arguments globalScope {Client} _.

Section Model.
Context {Client Options : Type} (api : ClientApi Client Options).

(** The constructor; [traceId] is the value of [generateTraceId()]. *)
Definition new (traceId : string) : t Client :=
  {| client := None; globalScope := Scope.new traceId |}.

(** [init(options)]: the client returned and the hub afterwards. *)
Definition init (options : Options) (hub : t Client) : Client * t Client :=
  match client hub with
  | Some c => (c, hub)
  | None =>
      let c := client_new api options in
      (c, {| client := Some c; globalScope := globalScope hub |})
  end.

(** [getClient()] *)
Definition getClient (hub : t Client) : option Client := client hub.

(** [getScope()] *)
Definition getScope (hub : t Client) : Scope.t := globalScope hub.

(** [captureError(error, metadata?)]: [this.client?.captureError(...)]
    evaluates to [undefined] without a call when there is no client. *)
Definition captureError (error : Js.value)
    (metadata : option (gmap string Js.value)) (hub : t Client)
  : result unit * t Client :=
  match client hub with
  | None => (Ok (), hub)
  | Some c =>
      let '(r, (sc, c')) :=
        client_captureError api error metadata (globalScope hub) c in
      (r, {| client := Some c'; globalScope := sc |})
  end.

(** [captureLog(level, message, metadata?)] *)
Definition captureLog (level message : string)
    (metadata : option (gmap string Js.value)) (hub : t Client)
  : result unit * t Client :=
  match client hub with
  | None => (Ok (), hub)
  | Some c =>
      let '(r, (sc, c')) :=
        client_captureLog api level message metadata (globalScope hub) c in
      (r, {| client := Some c'; globalScope := sc |})
  end.

(** [addBreadcrumb(breadcrumb)]: the global scope takes the breadcrumb
    first, whether or not there is a client. *)
Definition addBreadcrumb (breadcrumb : Breadcrumb) (hub : t Client)
  : result unit * t Client :=
  let sc := Scope.addBreadcrumb breadcrumb (globalScope hub) in
  match client hub with
  | None => (Ok (), {| client := None; globalScope := sc |})
  | Some c =>
      let '(r, c') := client_addBreadcrumb api breadcrumb c in
      (r, {| client := Some c'; globalScope := sc |})
  end.

End Model.

(** A client that does nothing, for running the hub on concrete input. *)
Definition idleApi : ClientApi unit unit :=
  {| client_new := fun _ => ();
     client_captureError := fun _ _ sc c => (Ok (), (sc, c));
     client_captureLog := fun _ _ _ sc c => (Ok (), (sc, c));
     client_addBreadcrumb := fun _ c => (Ok (), c) |}.

(** A hub without client: the state that [hub.close()] leaves in
    [tests/hub.test.ts]. *)
Definition noClient : t unit := new "4bf92f3577b34da6a3ce929d0e0e4736".

(** [{ type: 'custom', message: 'hub-bc', timestamp: 1 }] *)
Definition hubBreadcrumb : Breadcrumb :=
  mkBreadcrumb BcCustom None "hub-bc" None 1 None.

(** The two further methods of [LogtideClient] that the hub awaits. *)
Record ClientLifecycle (Client : Type) := mkLifecycle {
  client_flush : Client → result unit * Client;
  client_close : Client → result unit * Client
}.
Arguments client_flush {Client} _ _.
Arguments client_close {Client} _ _.

(** [flush()]: [await this.client?.flush()]. *)
Definition flush {Client} (life : ClientLifecycle Client) (hub : t Client)
  : result unit * t Client :=
  match client hub with
  | None => (Ok (), hub)
  | Some c =>
      let '(r, c') := client_flush life c in
      (r, {| client := Some c'; globalScope := globalScope hub |})
  end.

(** [close()]: [await this.client?.close(); this.client = null].  A
    rejection of the awaited call leaves the method before the
    assignment. *)
Definition close {Client} (life : ClientLifecycle Client) (hub : t Client)
  : result unit * t Client :=
  match client hub with
  | None => (Ok (), {| client := None; globalScope := globalScope hub |})
  | Some c =>
      match client_close life c with
      | (Ok _, _) => (Ok (), {| client := None; globalScope := globalScope hub |})
      | (Throw err, c') =>
          (Throw err, {| client := Some c'; globalScope := globalScope hub |})
      end
  end.

(** A client that is its options, closes without fault unless its options
    are ["stuck"], and changes nothing else. *)
Definition namedApi : ClientApi string string :=
  {| client_new := fun o => o;
     client_captureError := fun _ _ sc c => (Ok (), (sc, c));
     client_captureLog := fun _ _ _ sc c => (Ok (), (sc, c));
     client_addBreadcrumb := fun _ c => (Ok (), c) |}.

Definition namedLifecycle : ClientLifecycle string :=
  {| client_flush := fun c => (Ok (), c);
     client_close := fun c =>
       if String.eqb c "stuck" then (Throw (new_Error "close failed"), c)
       else (Ok (), c) |}.


End Hub.

(* ===================================================================== *)
(** ** utils/error-serializer.ts *)
(* ===================================================================== *)

Module ErrorSerializer.
Import Js.

(** [interface StructuredStackFrame] (the [metadata] field is never set). *)
Record StructuredStackFrame := mkFrame {
  f_file : option string;
  f_function : option string;
  f_line : option Z;
  f_column : option Z
}.

(** [interface StructuredException].  The interface declares [type],
    [message] and [raw] as strings; [serializeError] fills them with what
    it reads from the value it is given, unchecked, so that they hold
    values here.  A [raw] that is not set reads [undefined]. *)
#[warnings="-register-all"]
Inductive StructuredException := mkException {
  type : value;
  message : value;
  stacktrace : option (list StructuredStackFrame);
  language : option string;
  cause : option StructuredException;
  metadata : option (gmap string value);
  raw : value
}.

(** *** The regular expressions of [parseStackTrace]

    A quantified character class hands every way of matching to the rest of
    the pattern [k], in the order of a backtracking matcher: longest first
    when greedy, shortest first when lazy. *)
Section Regex.
Context {R : Type}.

Fixpoint plus_greedy (p : ascii → bool) (acc s : string)
    (k : string → string → option R) : option R :=
  match s with
  | String c r =>
      if p c then
        match plus_greedy p (acc +:+ String c EmptyString) r k with
        | Some x => Some x
        | None => k (acc +:+ String c EmptyString) r
        end
      else None
  | EmptyString => None
  end.

Fixpoint plus_lazy (p : ascii → bool) (acc s : string)
    (k : string → string → option R) : option R :=
  match s with
  | String c r =>
      if p c then
        match k (acc +:+ String c EmptyString) r with
        | Some x => Some x
        | None => plus_lazy p (acc +:+ String c EmptyString) r k
        end
      else None
  | EmptyString => None
  end.

(** A literal string at the head of [s]. *)
Fixpoint lit (l s : string) (k : string → option R) : option R :=
  match l with
  | EmptyString => k s
  | String a l' =>
      match s with
      | String c r => if Ascii.eqb a c then lit l' r k else None
      | EmptyString => None
      end
  end.

(** [$] *)
Definition eos (s : string) (x : R) : option R :=
  match s with
  | EmptyString => Some x
  | String _ _ => None
  end.

End Regex.

Definition code (c : ascii) : N := N_of_ascii c.

(** [\s], [.] and [\d] among the code units below 256. *)
Definition re_space (c : ascii) : bool := TraceContext.is_whitespace c.
Definition re_dot (c : ascii) : bool :=
  negb ((code c =? 10) || (code c =? 13))%N.
Definition re_digit (c : ascii) : bool :=
  ((48 <=? code c) && (code c <=? 57))%N.

(** [parseInt(s, 10)] on a run of decimal digits. *)
Fixpoint parseInt10_go (acc : Z) (s : string) : Z :=
  match s with
  | String c r =>
      if re_digit c then parseInt10_go (10 * acc + (Z.of_N (code c) - 48)) r
      else acc
  | EmptyString => acc
  end.
Definition parseInt10 (s : string) : Z := parseInt10_go 0 s.

(** [/^at\s+(.+?)\s+\((.+):(\d+):(\d+)\)$/] *)
Definition match1 (s : string) : option (string * string * string * string) :=
  lit "at" s (fun s =>
  plus_greedy re_space "" s (fun _ s =>
  plus_lazy re_dot "" s (fun g1 s =>
  plus_greedy re_space "" s (fun _ s =>
  lit "(" s (fun s =>
  plus_greedy re_dot "" s (fun g2 s =>
  lit ":" s (fun s =>
  plus_greedy re_digit "" s (fun g3 s =>
  lit ":" s (fun s =>
  plus_greedy re_digit "" s (fun g4 s =>
  lit ")" s (fun s => eos s (g1, g2, g3, g4)))))))))))).

(** [/^at\s+(.+):(\d+):(\d+)$/] *)
Definition match2 (s : string) : option (string * string * string) :=
  lit "at" s (fun s =>
  plus_greedy re_space "" s (fun _ s =>
  plus_greedy re_dot "" s (fun g1 s =>
  lit ":" s (fun s =>
  plus_greedy re_digit "" s (fun g2 s =>
  lit ":" s (fun s =>
  plus_greedy re_digit "" s (fun g3 s => eos s (g1, g2, g3)))))))).

(** [/^at\s+(.+?)\s+\((.+)\)$/] *)
Definition match3 (s : string) : option (string * string) :=
  lit "at" s (fun s =>
  plus_greedy re_space "" s (fun _ s =>
  plus_lazy re_dot "" s (fun g1 s =>
  plus_greedy re_space "" s (fun _ s =>
  lit "(" s (fun s =>
  plus_greedy re_dot "" s (fun g2 s =>
  lit ")" s (fun s => eos s (g1, g2)))))))).

(** [/^at\s+(.+)$/] *)
Definition match4 (s : string) : option string :=
  lit "at" s (fun s =>
  plus_greedy re_space "" s (fun _ s =>
  plus_greedy re_dot "" s (fun g1 s => eos s g1))).

(** [s.split('\n')] *)
Fixpoint split_lines (cur s : string) : list string :=
  match s with
  | String c r =>
      if (code c =? 10)%N then cur :: split_lines "" r
      else split_lines (cur +:+ String c EmptyString) r
  | EmptyString => [cur]
  end.

(** [s.startsWith(p)] *)
Definition startsWith (p s : string) : bool := String.prefix p s.

(** The body of the loop of [parseStackTrace] for one line: the frame
    pushed, if any. *)
Definition parseLine (line : string) : option StructuredStackFrame :=
  let trimmed := TraceContext.trim line in
  if negb (startsWith "at " trimmed) then None
  else
    match match1 trimmed with
    | Some (fn, file, ln, col) =>
        Some (mkFrame (Some file) (Some fn) (Some (parseInt10 ln))
                      (Some (parseInt10 col)))
    | None =>
    match match2 trimmed with
    | Some (file, ln, col) =>
        Some (mkFrame (Some file) None (Some (parseInt10 ln))
                      (Some (parseInt10 col)))
    | None =>
    match match3 trimmed with
    | Some (fn, file) => Some (mkFrame (Some file) (Some fn) None None)
    | None =>
    match match4 trimmed with
    | Some fn => Some (mkFrame None (Some fn) None None)
    | None => None
    end end end end.

(** [parseStackTrace(stack)]: [undefined] and the empty string are falsy. *)
Definition parseStackTrace (stack : option string) : list StructuredStackFrame :=
  match stack with
  | None => []
  | Some EmptyString => []
  | Some s => omap parseLine (split_lines "" s)
  end.

(** *** Objects

    An [Error] instance as [serializeError] reads it: what [error.name],
    [error.message], [error.stack] and [error.cause] give, whatever that
    is (a missing property reads [undefined]); its own enumerable
    properties [e_props], the keys of [Object.keys(error)]; and the
    properties it has otherwise, not enumerable or found on its prototype
    chain, which [key in error] sees as well.  Properties are data
    properties, and none is named [__proto__], which an assignment treats
    apart.  Any other object is the map of its properties. *)
Record ErrorObject := mkError {
  e_name : value;
  e_message : value;
  e_stack : value;
  e_cause : value;
  e_props : gmap string value;
  e_hidden : gmap string value
}.

Inductive object :=
| OError (e : ErrorObject)
| OPlain (props : gmap string value).

(** The store; an address it does not hold stands for an object without
    properties. *)
Definition deref (h : gmap nat object) (a : nat) : object :=
  default (OPlain ∅) (h !! a).

(** [obj[key]]; a missing property reads [undefined]. *)
Definition get (props : gmap string value) (key : string) : value :=
  default VUndefined (props !! key).

(** [key in error] and [error[key]]: an own property comes before one of
    the prototype chain. *)
Definition has (e : ErrorObject) (key : string) : bool :=
  bool_decide (is_Some (e_props e !! key) ∨ is_Some (e_hidden e !! key)).

Definition read (e : ErrorObject) (key : string) : value :=
  match e_props e !! key with
  | Some v => v
  | None => get (e_hidden e) key
  end.

Definition standardProps : list string := ["name"; "message"; "stack"; "cause"].

(** The metadata that [serializeError] collects from an [Error]: the own
    enumerable properties outside [standardProps], then [code] when the
    error has one; nothing when that leaves no key. *)
Definition errorMetadata (e : ErrorObject) : option (gmap string value) :=
  let m0 : gmap string value :=
    filter (fun kv => bool_decide (kv.1 ∉ standardProps)) (e_props e) in
  let m1 :=
    if has e "code" then <["code" := read e "code"]> m0 else m0 in
  if bool_decide (m1 = ∅) then None else Some m1.

(** [typeof v === 'string'] *)
Definition is_string (v : value) : bool :=
  match v with
  | VStr _ => true
  | _ => false
  end.

(** [parseStackTrace(error.stack)] as [serializeError] calls it, with
    whatever [error.stack] holds: past [if (!stack) return []], a value
    that is not a string has no [split] to call. *)
Definition stackFrames (stack : value) : result (list StructuredStackFrame) :=
  match stack with
  | VStr s => Ok (parseStackTrace (Some s))
  | _ =>
      if truthy stack
      then Throw (new_Error "stack.split is not a function")
      else Ok (parseStackTrace None)
  end.

(** What the engine throws in a call for which the call stack has no room
    left. *)
Definition RangeError : thrown := new_Error "Maximum call stack size exceeded".

Section Serializer.

(** [JSON.stringify] on the store: the text, [undefined] (an object
    whose [toJSON] gives that), or what it throws (a [TypeError] on a
    circular structure).  [exponential] is the exponent notation of
    [String_of]. *)
Variable JSON_stringify : gmap nat object → value → result (option string).
Variable exponential : Z → string.

(** [serializeError(error)].  [depth] is the number of nested calls that
    the call stack has room for: a call that finds none left ends in a
    [RangeError], which nothing catches. *)
Fixpoint serializeError (depth : nat) (h : gmap nat object) (error : value)
  : result StructuredException :=
  match depth with
  | O => Throw RangeError
  | S depth' =>
      match error with
      | VRef a =>
          match deref h a with
          | OError e =>
              match stackFrames (e_stack e) with
              | Throw err => Throw err
              | Ok frames =>
                  let finish (c : option StructuredException) :=
                    {| type := e_name e;
                       message := e_message e;
                       stacktrace := Some frames;
                       language := Some "javascript";
                       cause := c;
                       metadata := errorMetadata e;
                       raw := e_stack e |} in
                  if truthy (e_cause e) then
                    match serializeError depth' h (e_cause e) with
                    | Throw err => Throw err
                    | Ok c => Ok (finish (Some c))
                    end
                  else Ok (finish None)
              end
          | OPlain obj =>
              let ty :=
                match get obj "type" with
                | VStr s => s
                | _ => match get obj "name" with
                       | VStr s => s
                       | _ => "Error"
                       end
                end in
              let done (msg : value) :=
                {| type := VStr ty; message := msg; stacktrace := None;
                   language := Some "javascript"; cause := None;
                   metadata := Some obj; raw := VUndefined |} in
              match get obj "message" with
              | VStr s => Ok (done (VStr s))
              | _ =>
                  match JSON_stringify h error with
                  | Ok (Some s) => Ok (done (VStr s))
                  | Ok None => Ok (done VUndefined)
                  | Throw err => Throw err
                  end
              end
          end
      | VStr s =>
          Ok {| type := VStr "Error"; message := VStr s; stacktrace := None;
                language := Some "javascript"; cause := None;
                metadata := None; raw := VUndefined |}
      | _ =>
          Ok {| type := VStr "Error";
                message := VStr (String_of exponential error);
                stacktrace := None; language := Some "javascript";
                cause := None; metadata := None; raw := VUndefined |}
      end
  end.

(** What [serializeError] needs of one value to give it a string [type]
    and [message]: of an [Error], a string [name] and [message] and a
    [stack] that is a string or falsy; of another object, a string
    [message] or a text from [JSON.stringify]. *)
Definition node_ok (h : gmap nat object) (v : value) : bool :=
  match v with
  | VRef a =>
      match deref h a with
      | OError e =>
          is_string (e_name e) && is_string (e_message e) &&
          (is_string (e_stack e) || negb (truthy (e_stack e)))
      | OPlain obj =>
          is_string (get obj "message") ||
          match JSON_stringify h v with
          | Ok (Some _) => true
          | _ => false
          end
      end
  | _ => true
  end.

End Serializer.

(** The value that [serializeError] recurses into from [v], if any: the
    truthy [cause] of an [Error]. *)
Definition next_cause (h : gmap nat object) (v : value) : option value :=
  match v with
  | VRef a =>
      match deref h a with
      | OError e => if truthy (e_cause e) then Some (e_cause e) else None
      | OPlain _ => None
      end
  | _ => None
  end.

(** The chain of causes that starts at [v] ends within [depth] nested
    calls. *)
Fixpoint ends_within (depth : nat) (h : gmap nat object) (v : value) : bool :=
  match depth with
  | O => false
  | S depth' =>
      match next_cause h v with
      | Some c => ends_within depth' h c
      | None => true
      end
  end.

(** [const e = new Error('loop'); e.cause = e] *)
Definition selfCaused : gmap nat object :=
  {[ 0%nat := OError (mkError (VStr "Error") (VStr "loop") VUndefined (VRef 0) ∅ ∅) ]}.

(** [new Error('wrapper', { cause: new Error('root cause') })] *)
Definition wrapped : gmap nat object :=
  {[ 0%nat := OError (mkError (VStr "Error") (VStr "wrapper") VUndefined (VRef 1) ∅ ∅);
     1%nat := OError (mkError (VStr "Error") (VStr "root cause") VUndefined
                        VUndefined ∅ ∅) ]}.

(** [const e = new Error('gone'); e.name = 404] and
    [const e = new Error('gone'); e.stack = 5]. *)
Definition numberNamed : gmap nat object :=
  {[ 0%nat := OError (mkError (VNum 404) (VStr "gone") VUndefined VUndefined
                        {[ "name" := VNum 404 ]} ∅) ]}.

Definition numberStack : gmap nat object :=
  {[ 0%nat := OError (mkError (VStr "Error") (VStr "gone") (VNum 5) VUndefined
                        ∅ ∅) ]}.

(** A [JSON.stringify] and an exponent notation for running the
    serializer on stores without plain objects and large numbers. *)
Definition noJson (h : gmap nat object) (v : value) : result (option string) :=
  Throw (new_Error "Converting circular structure to JSON").

Definition noExponent (n : Z) : string := "".

(** The [type] and [message] of a level of the result are strings. *)
Definition string_fields (exn : StructuredException) : bool :=
  is_string (type exn) && is_string (message exn).

(** The exception and its causes, outermost first. *)
Fixpoint levels (exn : StructuredException) : list StructuredException :=
  exn :: match cause exn with
         | Some c => levels c
         | None => []
         end.

(** The values that [serializeError] goes through from [v], following
    at most [depth] causes. *)
Fixpoint causeChain (depth : nat) (h : gmap nat object) (v : value) : list value :=
  v :: match depth with
       | O => []
       | S depth' =>
           match next_cause h v with
           | Some c => causeChain depth' h c
           | None => []
           end
       end.


(** Texts in which [.] matches every code unit, and texts without a
    carriage return. *)
Fixpoint all_dot (s : string) : bool :=
  match s with
  | String c r => re_dot c && all_dot r
  | EmptyString => true
  end.

Fixpoint no_cr (s : string) : bool :=
  match s with
  | String c r => negb (code c =? 13)%N && no_cr r
  | EmptyString => true
  end.

(** The lines of a stack that [parseStackTrace] does not skip. *)
Definition frameLines (s : string) : list string :=
  filter (fun l => startsWith "at " (TraceContext.trim l) = true)
         (split_lines "" s).

Definition withStatusStack : string :=
  "Custom: bad" +:+ String (ascii_of_N 10) "" +:+
  "    at handler (/app/server.js:10:5)" +:+ String (ascii_of_N 10) "" +:+
  "    at <anonymous>".

(** An error with [name = 'Custom'] and [status = 502] set on it, and a
    three-line stack. *)
Definition withStatus : ErrorObject :=
  mkError (VStr "Custom") (VStr "bad") (VStr withStatusStack)
    VUndefined {[ "status" := VNum 502; "name" := VStr "Custom" ]} ∅.

(** [class HttpError extends Error { get code() { return 'E_HTTP' } }]
    read as data: [code] is found on the prototype, not among the own
    enumerable properties. *)
Definition withInheritedCode : ErrorObject :=
  mkError (VStr "HttpError") (VStr "bad") VUndefined VUndefined ∅
    {[ "code" := VStr "E_HTTP" ]}.

End ErrorSerializer.

(* ===================================================================== *)
(** ** utils/trace-id.ts *)
(* ===================================================================== *)

Module TraceId.

(** [const HEX = '0123456789abcdef'] *)
Definition HEX : string := "0123456789abcdef".

(** [HEX[i]]: the character at index [i], [undefined] (which [+] turns
    into the text ["undefined"]) past the end. *)
Definition hexAt (i : N) : string :=
  match String.get (N.to_nat i) HEX with
  | Some c => String c EmptyString
  | None => "undefined"
  end.

(** [HEX[b >> 4] + HEX[b & 0x0f]] for an element [b] of a [Uint8Array]. *)
Definition hexPair (b : Byte.byte) : string :=
  hexAt (N.shiftr (Byte.to_N b) 4) +:+ hexAt (N.land (Byte.to_N b) 15).

(** The loop of [randomHex] over the bytes of the array. *)
Fixpoint hexOfBytes (bytes : list Byte.byte) : string :=
  match bytes with
  | [] => EmptyString
  | b :: rest => hexPair b +:+ hexOfBytes rest
  end.

(** [randomHex(length)]; [random i] is the byte that
    [crypto.getRandomValues] puts at index [i] of the array. *)
Definition randomHex (length : nat) (random : nat → Byte.byte) : string :=
  hexOfBytes (map random (seq 0 length)).

(** [generateTraceId()] *)
Definition generateTraceId (random : nat → Byte.byte) : string := randomHex 16 random.

(** [generateSpanId()] *)
Definition generateSpanId (random : nat → Byte.byte) : string := randomHex 8 random.

(** The value of a string of hexadecimal digit pairs, byte by byte:
    the inverse of [hexOfBytes]. *)
Fixpoint bytesOfHex (s : string) : option (list Byte.byte) :=
  match s with
  | EmptyString => Some []
  | String c1 (String c2 rest) =>
      match TraceContext.hex_digit c1, TraceContext.hex_digit c2 with
      | Some h, Some l =>
          match Byte.of_N (Z.to_N (16 * h + l)) with
          | Some b => cons b <$> bytesOfHex rest
          | None => None
          end
      | _, _ => None
      end
  | String _ EmptyString => None
  end.

End TraceId.

(* ===================================================================== *)
(** ** span-manager.ts *)
(* ===================================================================== *)

Module SpanManager.
Import Js Types.

(** [interface StartSpanOptions] *)
Record StartSpanOptions := mkStartSpanOptions {
  o_name : string;
  o_traceId : option string;
  o_parentSpanId : option string;
  o_attributes : option (gmap string Js.value)
}.

(** [Map<string, Span>]: the entries in the order of their insertion, one
    per key. *)
Definition SpanMap : Type := list (string * Span).

(** [map.get(key)] *)
Fixpoint map_get (key : string) (m : SpanMap) : option Span :=
  match m with
  | [] => None
  | (k, v) :: rest => if String.eqb k key then Some v else map_get key rest
  end.

(** [map.set(key, value)]: an entry that exists keeps its place and takes
    the value, a new one goes to the end. *)
Fixpoint map_set (key : string) (value : Span) (m : SpanMap) : SpanMap :=
  match m with
  | [] => [(key, value)]
  | (k, v) :: rest =>
      if String.eqb k key then (k, value) :: rest
      else (k, v) :: map_set key value rest
  end.

(** [map.delete(key)] *)
Fixpoint map_delete (key : string) (m : SpanMap) : SpanMap :=
  match m with
  | [] => []
  | (k, v) :: rest =>
      if String.eqb k key then rest else (k, v) :: map_delete key rest
  end.

(** [class SpanManager]: [activeSpans].  A new manager has none. *)
Record t := mk { activeSpans : SpanMap }.

Definition new : t := {| activeSpans := [] |}.

(** [startSpan(options)]; [genTraceId] and [genSpanId] are what
    [generateTraceId()] and [generateSpanId()] return, [now] is
    [Date.now()].  The span returned and the manager afterwards. *)
Definition startSpan (options : StartSpanOptions) (genTraceId genSpanId : string)
    (now : Z) (sm : t) : Span * t :=
  let span :=
    {| span_traceId := default genTraceId (o_traceId options);
       span_spanId := genSpanId;
       span_parentSpanId := o_parentSpanId options;
       span_name := o_name options;
       span_status := StUnset;
       span_startTime := now;
       span_endTime := None;
       span_attributes := default ∅ (o_attributes options) |} in
  (span, {| activeSpans := map_set (span_spanId span) span (activeSpans sm) |}).

(** [finishSpan(spanId, status = 'ok')]; [None] is [undefined]. *)
Definition finishSpan (spanId : string) (status : option SpanStatus) (now : Z)
    (sm : t) : option Span * t :=
  match map_get spanId (activeSpans sm) with
  | None => (None, sm)
  | Some span =>
      let finished :=
        {| span_traceId := span_traceId span;
           span_spanId := span_spanId span;
           span_parentSpanId := span_parentSpanId span;
           span_name := span_name span;
           span_status := default StOk status;
           span_startTime := span_startTime span;
           span_endTime := Some now;
           span_attributes := span_attributes span |} in
      (Some finished, {| activeSpans := map_delete spanId (activeSpans sm) |})
  end.

(** [getSpan(spanId)] *)
Definition getSpan (spanId : string) (sm : t) : option Span :=
  map_get spanId (activeSpans sm).

(** [getActiveSpans()] *)
Definition getActiveSpans (sm : t) : list Span := (activeSpans sm).*2.

(** The calls on a manager, with what the host supplies to each. *)
Inductive call :=
| CallStart (options : StartSpanOptions) (genTraceId genSpanId : string) (now : Z)
| CallFinish (spanId : string) (status : option SpanStatus) (now : Z).

Definition exec (c : call) (sm : t) : t :=
  match c with
  | CallStart o gt gs now => (startSpan o gt gs now sm).2
  | CallFinish id st now => (finishSpan id st now sm).2
  end.

(** The span ids that a sequence of calls leaves active, oldest first:
    a start adds its id unless it is active already, a finish removes
    its id. *)
Fixpoint activeIds (calls : list call) (acc : list string) : list string :=
  match calls with
  | [] => acc
  | CallStart _ _ gs _ :: rest =>
      activeIds rest (if bool_decide (gs ∈ acc) then acc else acc ++ [gs])
  | CallFinish id _ _ :: rest =>
      activeIds rest (filter (λ k, k ≠ id) acc)
  end.

(** The manager that a series of calls makes of a new one. *)
Definition run (calls : list call) : t :=
  foldl (fun sm c => exec c sm) new calls.

(** [{ ...span, endTime: now, status }]: the record that [finishSpan]
    returns for [span]. *)
Definition finished (span : Span) (status : option SpanStatus) (now : Z) : Span :=
  {| span_traceId := span_traceId span;
     span_spanId := span_spanId span;
     span_parentSpanId := span_parentSpanId span;
     span_name := span_name span;
     span_status := default StOk status;
     span_startTime := span_startTime span;
     span_endTime := Some now;
     span_attributes := span_attributes span |}.


End SpanManager.

(* ===================================================================== *)
(** * Properties *)
(* ===================================================================== *)

(** ** The circuit breaker *)

Module CircuitBreakerFacts.
Import CircuitBreaker.

Lemma recordFailures_snoc times now cb :
  recordFailures (times ++ [now]) cb = recordFailure now (recordFailures times cb).
Proof. unfold recordFailures. by rewrite foldl_app. Qed.

Lemma recordFailures_config times cb :
  threshold (recordFailures times cb) = threshold cb ∧
  resetMs (recordFailures times cb) = resetMs cb.
Proof.
  induction times as [|now times IH] using rev_ind; [done|].
  rewrite recordFailures_snoc. simpl. exact IH.
Qed.

Lemma recordFailures_count times cb :
  failureCount (recordFailures times cb)
  = failureCount cb + Z.of_nat (length times).
Proof.
  induction times as [|now times IH] using rev_ind.
  - simpl. lia.
  - rewrite recordFailures_snoc, length_app. simpl. rewrite IH. lia.
Qed.

(** A breaker counts at least [threshold] failures whenever it is not
    closed, and keeps the configuration it was built with. *)
Lemma reachable_inv th rs cb :
  reachable th rs cb →
  threshold cb = th ∧ resetMs cb = rs ∧
  (state cb ≠ CLOSED → th ≤ failureCount cb).
Proof.
  induction 1 as [|cb c _ (Hth & Hrs & Hcnt)].
  - by repeat split.
  - destruct c as [|now|now]; simpl.
    + by repeat split.
    + split; [done|]. split; [done|]. rewrite Hth.
      destruct (Z.leb_spec th (failureCount cb + 1)); simpl; [lia|].
      intros Hs. specialize (Hcnt Hs). lia.
    + unfold canAttempt.
      destruct (state cb) eqn:Hst; [|destruct (elapsed_ok now cb)|]; simpl;
        (split; [done|]); (split; [done|]); rewrite ?Hst; intros Hs;
        try done; apply Hcnt; congruence.
Qed.

(** C1, as the code has it.  A breaker built with a threshold [th >= 1]
    and [resetMs = rs], after exactly [th] consecutive [recordFailure()]
    calls (the last one at the clock reading [tlast]): [getState()] is
    ["OPEN"]; [canAttempt()] answers [false], changing nothing, as long as
    less than [rs] has elapsed since [tlast]; once at least [rs] has
    elapsed, and provided [tlast] is not [0], it answers [true] and the
    state becomes ["HALF_OPEN"], and a following [recordSuccess()] gives
    ["CLOSED"] with the failure counter at [0]. *)
Theorem threshold_failures_open_then_probe
    (th rs : Z) (times : list Z) (tlast : Z) :
  1 ≤ th →
  Z.of_nat (length (times ++ [tlast])) = th →
  let cb := recordFailures (times ++ [tlast]) (new th rs) in
  getState cb = "OPEN" ∧
  (∀ now, now - tlast < rs → canAttempt now cb = (false, cb)) ∧
  (∀ now, tlast ≠ 0 → rs ≤ now - tlast →
     (canAttempt now cb).1 = true ∧
     getState (canAttempt now cb).2 = "HALF_OPEN" ∧
     getState (recordSuccess (canAttempt now cb).2) = "CLOSED" ∧
     failureCount (recordSuccess (canAttempt now cb).2) = 0).
Proof.
  intros Hth Hlen cb.
  assert (Hst : state cb = OPEN).
  { subst cb. rewrite recordFailures_snoc. simpl.
    destruct (recordFailures_config times (new th rs)) as [-> _].
    rewrite recordFailures_count. simpl.
    rewrite length_app in Hlen. simpl in Hlen.
    destruct (Z.leb_spec th (0 + Z.of_nat (length times) + 1)); [done|lia]. }
  assert (Hlast : lastFailureTime cb = Some tlast).
  { subst cb. by rewrite recordFailures_snoc. }
  assert (Hrs : resetMs cb = rs).
  { subst cb. by destruct (recordFailures_config (times ++ [tlast])
                             (new th rs)) as [_ ->]. }
  split; [by unfold getState; rewrite Hst|]. split.
  - intros now Hlt. unfold canAttempt, elapsed_ok. rewrite Hst, Hlast, Hrs.
    destruct (Z.leb_spec rs (now - tlast)); [lia|].
    by rewrite andb_false_r.
  - intros now Hnz Hge. unfold canAttempt, elapsed_ok.
    rewrite Hst, Hlast, Hrs. simpl.
    destruct (Z.eqb_spec tlast 0); [done|].
    destruct (Z.leb_spec rs (now - tlast)); [|lia].
    by simpl.
Qed.

Lemma threshold_failures_open_then_probe_witness :
  let cb := recordFailures ([1000; 1001] ++ [1002]) (new 3 1000) in
  getState cb = "OPEN" ∧
  canAttempt 1500 cb = (false, cb) ∧
  (canAttempt 2002 cb).1 = true ∧
  getState (canAttempt 2002 cb).2 = "HALF_OPEN" ∧
  getState (recordSuccess (canAttempt 2002 cb).2) = "CLOSED" ∧
  failureCount (recordSuccess (canAttempt 2002 cb).2) = 0.
Proof.
  destruct (threshold_failures_open_then_probe 3 1000 [1000; 1001] 1002)
    as (Hopen & Hrefused & Hprobe).
  - lia.
  - reflexivity.
  - split; [exact Hopen|]. split.
    + apply Hrefused. lia.
    + apply Hprobe; lia.
Defined.

(** C1, as the claim states it, fails in two ways.  A failure stamped at
    the clock reading [0] opens a breaker that grants no probe, however
    long after: [this.lastFailureTime && ...] takes the stamp [0] for a
    missing one.  And a breaker of threshold [0] is closed, not open, after
    its zero failures. *)
Lemma zero_stamp_never_probes_counterexample :
  let cb := recordFailures [0] (new 1 1000) in
  getState cb = "OPEN" ∧
  1000 ≤ 5000 - 0 ∧ canAttempt 5000 cb = (false, cb) ∧
  getState (recordFailures [] (new 0 1000)) = "CLOSED".
Proof. by vm_compute. Qed.

(** A failure stamped at the clock reading [0] leaves an open breaker that
    never grants a probe. *)
Remark stamp_zero_reads_as_missing (now : Z) (cb : t) :
  state cb = OPEN → lastFailureTime cb = Some 0 →
  canAttempt now cb = (false, cb).
Proof.
  intros Hst Hlast. unfold canAttempt, elapsed_ok. by rewrite Hst, Hlast.
Qed.

(** The run of [tests/circuit-breaker.test.ts]: three failures, a refused
    attempt, a probe a second later, a success. *)
Example breaker_test_run :
  let cb := recordFailures [1000; 1001; 1002] (new 3 1000) in
  getState cb = "OPEN" ∧
  canAttempt 1500 cb = (false, cb) ∧
  (canAttempt 2002 cb).1 = true ∧
  getState (canAttempt 2002 cb).2 = "HALF_OPEN" ∧
  getState (recordSuccess (canAttempt 2002 cb).2) = "CLOSED".
Proof. by vm_compute. Qed.

(** C4.  In every state that a breaker can reach and whose state is
    HALF_OPEN, one [recordFailure()] puts the state back to OPEN, whatever
    the threshold the breaker was built with. *)
Theorem half_open_failure_reopens (th rs : Z) (cb : t) (now : Z) :
  reachable th rs cb →
  state cb = HALF_OPEN →
  state (recordFailure now cb) = OPEN ∧
  getState (recordFailure now cb) = "OPEN".
Proof.
  intros Hr Hst.
  destruct (reachable_inv th rs cb Hr) as (Hth & _ & Hcnt).
  assert (Hopen : state (recordFailure now cb) = OPEN).
  { simpl. rewrite Hth.
    destruct (Z.leb_spec th (failureCount cb + 1)); [done|].
    assert (th ≤ failureCount cb) by (apply Hcnt; by rewrite Hst). lia. }
  split; [done|]. unfold getState. by rewrite Hopen.
Qed.

Lemma half_open_failure_reopens_witness :
  state (recordFailure 2500 probing) = OPEN ∧
  getState (recordFailure 2500 probing) = "OPEN".
Proof.
  apply (half_open_failure_reopens 3 1000 probing 2500).
  - unfold probing. repeat apply reach_step. apply reach_new.
  - reflexivity.
Defined.

End CircuitBreakerFacts.

(** ** The breadcrumb buffer *)

Module BreadcrumbBufferFacts.
Import BreadcrumbBuffer.

Section Eviction.
Context {A : Type}.
Implicit Types (b : t A) (x : A) (xs : list A).

Lemma addAll_cons x xs b : addAll (x :: xs) b = addAll xs (add x b).
Proof. reflexivity. Qed.

Lemma maxSize_add x b : maxSize (add x b) = maxSize b.
Proof. reflexivity. Qed.

(** One [add] on a buffer within its bound keeps the last [maxSize] entries
    of the buffer extended by the new one. *)
Lemma add_within_bound x b (m : nat) :
  maxSize b = Z.of_nat m → (1 ≤ m)%nat →
  (List.length (buffer b) ≤ m)%nat →
  buffer (add x b)
  = drop (List.length (buffer b ++ [x]) - m) (buffer b ++ [x]) ∧
  (List.length (buffer (add x b)) ≤ m)%nat.
Proof.
  intros Hm Hpos Hlen. unfold add. simpl. rewrite Hm, length_app. simpl.
  destruct (Z.leb_spec (Z.of_nat m) (Z.of_nat (List.length (buffer b)))) as [Hfull|Hroom].
  - assert (List.length (buffer b) = m) as Heq by lia.
    replace (List.length (buffer b) + 1 - m)%nat with 1%nat by lia.
    unfold shift. destruct (buffer b) as [|y l]; simpl in *; [lia|].
    rewrite drop_0. split; [done|]. rewrite length_app. simpl. lia.
  - replace (List.length (buffer b) + 1 - m)%nat with 0%nat by lia.
    rewrite drop_0. split; [done|]. rewrite length_app. simpl. lia.
Qed.

Lemma addAll_within_bound xs b (m : nat) :
  maxSize b = Z.of_nat m → (1 ≤ m)%nat →
  (List.length (buffer b) ≤ m)%nat →
  buffer (addAll xs b)
  = drop (List.length (buffer b ++ xs) - m) (buffer b ++ xs).
Proof.
  revert b. induction xs as [|x xs IH]; intros b Hm Hpos Hlen.
  - simpl. rewrite app_nil_r.
    replace (List.length (buffer b) - m)%nat with 0%nat by lia.
    by rewrite drop_0.
  - rewrite addAll_cons.
    destruct (add_within_bound x b m Hm Hpos Hlen) as [Hbuf Hlen'].
    rewrite IH by (rewrite ?maxSize_add; done).
    rewrite Hbuf. set (k := (List.length (buffer b ++ [x]) - m)%nat).
    assert (Hk : (k ≤ List.length (buffer b ++ [x]))%nat) by (subst k; lia).
    rewrite <- (drop_app_le (buffer b ++ [x]) xs k) by exact Hk.
    rewrite drop_drop, <- app_assoc. simpl.
    f_equal. rewrite length_drop. subst k.
    rewrite !length_app in *. simpl in *. lia.
Qed.

End Eviction.

(** C6, as the code has it.  For a buffer of capacity [maxSize >= 1]: an
    [add()] on a buffer whose length equals [maxSize] evicts the oldest
    entry and then appends the new one; hence, starting from the empty
    buffer, [getAll()] returns the most recent [maxSize] entries added (all
    of them while fewer were added), in insertion order; for capacity 3,
    adding [a, b, c, d] leaves [[b; c; d]]. *)
Theorem add_drops_oldest_first {A : Type} (cap : Z) :
  1 ≤ cap →
  (∀ (b : t A) (x : A),
     maxSize b = cap → length b = cap →
     getAll (add x b) = tail (getAll b) ++ [x]) ∧
  (∀ xs : list A,
     getAll (addAll xs (new (Some cap)))
     = drop (List.length xs - Z.to_nat cap) xs) ∧
  (∀ a b c d : A,
     getAll (addAll [a; b; c; d] (new (Some 3))) = [b; c; d]).
Proof.
  intros Hcap. split; [|split].
  - intros b x Hm Hlen. unfold getAll, add, length in *. simpl.
    rewrite Hm, Hlen, Z.leb_refl. reflexivity.
  - intros xs. unfold getAll.
    rewrite (addAll_within_bound xs (new (Some cap)) (Z.to_nat cap)); simpl; [done| |lia..].
    lia.
  - reflexivity.
Qed.

Lemma add_drops_oldest_first_witness :
  (∀ (b : t nat) (x : nat),
     maxSize b = 2 → length b = 2 →
     getAll (add x b) = tail (getAll b) ++ [x]) ∧
  (∀ xs : list nat,
     getAll (addAll xs (new (Some 2)))
     = drop (List.length xs - Z.to_nat 2) xs) ∧
  (∀ a b c d : nat,
     getAll (addAll [a; b; c; d] (new (Some 3))) = [b; c; d]).
Proof. apply (add_drops_oldest_first 2). lia. Defined.

(** C6, as the claim states it, fails for a capacity below [1]: a buffer
    of capacity [0] returns one entry, the last one added, not the most
    recent [0] entries; there is nothing to evict from an empty array
    before the new entry is pushed. *)
Lemma zero_capacity_keeps_one_counterexample :
  getAll (addAll [1; 2; 3] (new (Some 0))) = [3] ∧
  List.length (getAll (addAll [1; 2; 3] (new (Some 0)))) ≠ Z.to_nat 0.
Proof. by vm_compute. Qed.

(** [tests/breadcrumb-buffer.test.ts]: 110 entries into the default
    buffer leave the last 100, the first of which is [item-10]. *)
Example default_capacity_keeps_last_100 :
  let items := seq 0 110 in
  let all := getAll (addAll items (new None)) in
  List.length all = 100%nat ∧ head all = Some 10%nat.
Proof. by vm_compute. Qed.

End BreadcrumbBufferFacts.

(** ** The trace context codec *)

Module TraceContextFacts.
Import TraceContext.

Lemma hex_group_app (n : nat) (g rest : string) :
  valid_hex_id n g → hex_group n (g +:+ rest) = Some (g, rest).
Proof.
  intros [<- Hhex].
  induction g as [|c g IH]; simpl in *; [done|].
  apply andb_prop in Hhex as [Hc Hg]. by rewrite Hc, (IH Hg).
Qed.

Lemma append_nonempty (s1 s2 : string) :
  s2 ≠ EmptyString → s1 +:+ s2 ≠ EmptyString.
Proof. by destruct s1. Qed.

(** [trimEnd] leaves a string alone when its last part has no trailing
    white space. *)
Lemma trimEnd_app (s1 s2 : string) :
  s2 ≠ EmptyString → trimEnd s2 = s2 → trimEnd (s1 +:+ s2) = s1 +:+ s2.
Proof.
  intros Hne Hs2. induction s1 as [|c s1 IH]; simpl; [done|].
  rewrite IH. pose proof (append_nonempty s1 s2 Hne).
  change (String c s1 +:+ s2) with (String c (s1 +:+ s2)).
  by destruct (s1 +:+ s2).
Qed.

(** What [createTraceparent] builds comes back unchanged from [trim]. *)
Lemma trim_createTraceparent (T S : string) (b : bool) :
  trim (createTraceparent T S b) = createTraceparent T S b.
Proof.
  unfold trim, createTraceparent.
  assert (Hstart : ∀ r, trimStart ("00-" +:+ r) = "00-" +:+ r) by reflexivity.
  rewrite Hstart.
  repeat (rewrite trimEnd_app;
          [done|first [done|apply append_nonempty; done]|]).
  by destruct b.
Qed.

Lemma append_empty_r (s : string) : s +:+ EmptyString = s.
Proof.
  induction s as [|c s IH]; [done|].
  change (String c (s +:+ EmptyString) = String c s). by rewrite IH.
Qed.

(** The pattern matches four groups of the right widths joined by dashes,
    and captures them. *)
Lemma match_regex_groups (g1 g2 g3 g4 : string) :
  valid_hex_id 2 g1 → valid_hex_id 32 g2 →
  valid_hex_id 16 g3 → valid_hex_id 2 g4 →
  match_TRACEPARENT_REGEX (g1 +:+ "-" +:+ g2 +:+ "-" +:+ g3 +:+ "-" +:+ g4)
  = Some (g1, g2, g3, g4).
Proof.
  intros H1 H2 H3 H4. unfold match_TRACEPARENT_REGEX.
  assert (Hdash : ∀ r, dash ("-" +:+ r) = Some r) by reflexivity.
  rewrite (hex_group_app 2 g1 _ H1). cbn -[hex_group]. rewrite Hdash.
  cbn -[hex_group].
  rewrite (hex_group_app 32 g2 _ H2). cbn -[hex_group]. rewrite Hdash.
  cbn -[hex_group].
  rewrite (hex_group_app 16 g3 _ H3). cbn -[hex_group]. rewrite Hdash.
  cbn -[hex_group].
  rewrite <- (append_empty_r g4) at 1.
  rewrite (hex_group_app 2 g4 _ H4). reflexivity.
Qed.

(** C7.  For every trace id [T] of 32 characters of [[0-9a-f]], every span
    id [S] of 16 such characters and every boolean [b],
    [parseTraceparent(createTraceparent(T, S, b))] is not [null]: its
    version is ["00"], its [traceId] is [T], its [parentSpanId] is [S] and
    its [sampled] flag is [b]. *)
Theorem parse_create_roundtrip (T S : string) (b : bool) :
  valid_hex_id 32 T → valid_hex_id 16 S →
  parseTraceparent (createTraceparent T S b)
  = Some {| version := "00"; traceId := T; parentSpanId := S; sampled := b |}.
Proof.
  intros HT HS. unfold parseTraceparent.
  rewrite trim_createTraceparent.
  change (createTraceparent T S b)
    with ("00" +:+ "-" +:+ T +:+ "-" +:+ S +:+ "-" +:+ (if b then "01" else "00")).
  rewrite (match_regex_groups "00" T S (if b then "01" else "00"));
    [by destruct b|by split|done|done|by destruct b].
Qed.

Lemma parse_create_roundtrip_witness :
  parseTraceparent
    (createTraceparent "4bf92f3577b34da6a3ce929d0e0e4736" "00f067aa0ba902b7" true)
  = Some {| version := "00";
            traceId := "4bf92f3577b34da6a3ce929d0e0e4736";
            parentSpanId := "00f067aa0ba902b7";
            sampled := true |}.
Proof.
  apply (parse_create_roundtrip
           "4bf92f3577b34da6a3ce929d0e0e4736" "00f067aa0ba902b7" true).
  - split; reflexivity.
  - split; reflexivity.
Defined.

(** [tests]: surrounding white space is trimmed, a short trace id or
    upper-case digits are refused. *)
Example parse_examples :
  parseTraceparent "  00-4bf92f3577b34da6a3ce929d0e0e4736-00f067aa0ba902b7-01  "
  = Some {| version := "00";
            traceId := "4bf92f3577b34da6a3ce929d0e0e4736";
            parentSpanId := "00f067aa0ba902b7";
            sampled := true |} ∧
  parseTraceparent "00-short-00f067aa0ba902b7-01" = None ∧
  parseTraceparent "invalid" = None ∧
  parseTraceparent "00-4BF92F3577B34DA6A3CE929D0E0E4736-00f067aa0ba902b7-01" = None.
Proof. by vm_compute. Qed.

End TraceContextFacts.

(** ** The batching transport *)

Module BatchTransportFacts.
Import Js Types BatchTransport.

Section Buffers.
Context {Env : Type} (host : Host Env).
Implicit Types (self : t Env) (e : Env).

Lemma set_logBuffer_id self : set_logBuffer (logBuffer self) self = self.
Proof. by destruct self. Qed.

Lemma set_logBuffer_twice l l' self :
  set_logBuffer l (set_logBuffer l' self) = set_logBuffer l self.
Proof. reflexivity. Qed.

(** The loop of [sendLogs] appends the incoming entries that fit under
    [maxBufferSize] and drops the others; it touches nothing else. *)
Lemma pushLog_loop logs self :
  Z.of_nat (length (logBuffer self)) ≤ maxBufferSize self →
  foldl pushLog self logs
  = set_logBuffer
      (logBuffer self
         ++ take (Z.to_nat (maxBufferSize self) - length (logBuffer self)) logs)
      self.
Proof.
  revert self. induction logs as [|log logs IH]; intros self Hinv; simpl.
  - by rewrite take_nil, app_nil_r, set_logBuffer_id.
  - unfold pushLog at 2.
    destruct (Z.leb_spec (maxBufferSize self) (Z.of_nat (length (logBuffer self))))
      as [Hfull|Hroom].
    + rewrite IH by done.
      replace (Z.to_nat (maxBufferSize self) - length (logBuffer self))%nat
        with 0%nat by lia.
      by rewrite !take_0.
    + rewrite IH by (simpl; rewrite length_app; simpl; lia).
      simpl. rewrite set_logBuffer_twice, length_app. simpl.
      destruct (Z.to_nat (maxBufferSize self) - length (logBuffer self))%nat
        as [|k] eqn:Hk; [lia|].
      replace (Z.to_nat (maxBufferSize self) - (length (logBuffer self) + 1))%nat
        with k by lia.
      simpl. by rewrite <- app_assoc.
Qed.

Lemma pushSpan_loop spans self :
  Z.of_nat (length (spanBuffer self)) ≤ maxBufferSize self →
  foldl pushSpan self spans
  = set_spanBuffer
      (spanBuffer self
         ++ take (Z.to_nat (maxBufferSize self) - length (spanBuffer self)) spans)
      self.
Proof.
  revert self. induction spans as [|span spans IH]; intros self Hinv; simpl.
  - rewrite take_nil, app_nil_r. by destruct self.
  - unfold pushSpan at 2.
    destruct (Z.leb_spec (maxBufferSize self) (Z.of_nat (length (spanBuffer self))))
      as [Hfull|Hroom].
    + rewrite IH by done.
      replace (Z.to_nat (maxBufferSize self) - length (spanBuffer self))%nat
        with 0%nat by lia.
      by rewrite !take_0.
    + rewrite IH by (simpl; rewrite length_app; simpl; lia).
      simpl. rewrite length_app. simpl.
      destruct (Z.to_nat (maxBufferSize self) - length (spanBuffer self))%nat
        as [|k] eqn:Hk; [lia|].
      replace (Z.to_nat (maxBufferSize self) - (length (spanBuffer self) + 1))%nat
        with k by lia.
      simpl. by rewrite <- app_assoc.
Qed.

Lemma set_circuitBreaker_id self :
  set_circuitBreaker (circuitBreaker self) self = self.
Proof. by destruct self. Qed.

(** The retry loop leaves the buffers and the configuration alone; only
    the breaker can change. *)
Lemma retryLoop_frame fn remaining attempt lastError self e :
  ∃ cb, (retryLoop host fn remaining attempt lastError self e).2.1
        = set_circuitBreaker cb self.
Proof.
  revert attempt lastError e.
  induction remaining as [|k IH]; intros attempt lastError e; simpl.
  - exists (circuitBreaker self). by rewrite set_circuitBreaker_id.
  - destruct (fn e) as [[[]|error] e1]; simpl; [by eexists|].
    destruct (toLastError error) as [message|err];
      [|exists (circuitBreaker self); by rewrite set_circuitBreaker_id].
    destruct (attempt <? maxRetries self); [|apply IH].
    destruct (debugMessage (debug self) message); [apply IH|].
    exists (circuitBreaker self). by rewrite set_circuitBreaker_id.
Qed.

Lemma sendWithRetry_frame fn self e :
  ∃ cb, (sendWithRetry host fn (self, e)).2.1 = set_circuitBreaker cb self.
Proof.
  unfold sendWithRetry.
  destruct (retryLoop_frame fn (Z.to_nat (maxRetries self + 1)) 0 None self e)
    as [cb Hcb].
  destruct (retryLoop host fn _ 0 None self e) as [[[|last]|err] [self' e']];
    simpl in *; subst self'; [by eexists| |by eexists].
  destruct (debugMessage _ _); by eexists.
Qed.

(** What [convertible] is for: the [catch] block and the debug messages
    get past such a value. *)
Lemma convertible_caught debug error :
  convertible debug error = true →
  ∃ message, toLastError error = Ok message ∧
             debugMessage debug message = Ok ().
Proof.
  destruct error as [[s|err]|[s|err]]; simpl; intros H; try done;
    eexists; (split; [done|]); by destruct debug.
Qed.

End Buffers.

Section Retry.
Context {Env : Type} (host : Host Env).
Variable fn : Env → result unit * Env.
Variable debugging : bool.
Hypothesis fn_fails :
  ∀ e, ∃ error, (fn e).1 = Throw error ∧ convertible debugging error = true.

(** When every call fails with a convertible value the loop runs to its
    end, calling [fn] once per iteration and touching nothing of the
    transport; the debug message after the loop can be built. *)
Lemma retryLoop_all_fail remaining attempt lastError (self : t (Env * Z)) e n :
  debug self = debugging →
  debugMessage debugging (default (Text "undefined") lastError) = Ok () →
  ∃ e' last,
    retryLoop (countedHost host) (counted fn) remaining attempt lastError
      self (e, n)
    = (Ok (Exhausted last), (self, (e', n + Z.of_nat remaining))) ∧
    debugMessage debugging (default (Text "undefined") last) = Ok ().
Proof.
  intros Hdebug. revert attempt lastError e n.
  induction remaining as [|k IH]; intros attempt lastError e n Hlast.
  - exists e, lastError. simpl. by rewrite Z.add_0_r.
  - simpl. destruct (fn_fails e) as (error & Hf & Hconv).
    destruct (fn e) as [r e1]. simpl in Hf. subst r.
    destruct (convertible_caught _ _ Hconv) as (message & -> & Hmsg).
    rewrite Hdebug, Hmsg.
    destruct (attempt <? maxRetries self);
      [destruct (IH (attempt + 1) (Some message)
                   (sleep host (retryDelayMs self * 2 ^ attempt) e1) (n + 1) Hmsg)
         as (e' & last & He' & Hl)
      |destruct (IH (attempt + 1) (Some message) e1 (n + 1) Hmsg)
         as (e' & last & He' & Hl)];
      exists e', last; rewrite He'; (split; [|done]); do 3 f_equal; lia.
Qed.

End Retry.

(** C3, as the code has it.  For every send function that fails on each
    invocation with an [Error] or with a value that [String()] converts
    (and so for every batch it is to deliver), with [maxRetries >= -1],
    [sendWithRetry] invokes it exactly [maxRetries + 1] times, then calls
    [recordFailure()] once on the breaker, leaves the buffers and every
    other field of the transport as they were (the batch is not queued
    again) and returns without throwing.  With [maxRetries = 1] and the
    always-failing mock of the test-suite, a flush of two logs makes
    exactly 2 send attempts, delivers nothing, records one breaker failure
    and leaves the buffer empty. *)
Theorem sendWithRetry_gives_up {Env : Type} (host : Host Env)
    (fn : Env → result unit * Env) (self : t (Env * Z)) (e : Env) :
  -1 ≤ maxRetries self →
  (∀ e, ∃ error,
     (fn e).1 = Throw error ∧ convertible (debug self) error = true) →
  (∃ e',
     sendWithRetry (countedHost host) (counted fn) (self, (e, 0))
     = (Ok (),
        (set_circuitBreaker
           (CircuitBreaker.recordFailure (clock host e') (circuitBreaker self))
           self,
         (e', maxRetries self + 1)))) ∧
  (∀ a b : string,
     let s := sendLogs mockHost [makeLog a; makeLog b]
                (new retryOptions, mockWorld true) in
     s.1 = Ok () ∧
     callCount s.2.2 = 2 ∧ sentLogs s.2.2 = [] ∧
     CircuitBreaker.failureCount (circuitBreaker s.2.1) = 1 ∧
     logBuffer s.2.1 = []).
Proof.
  intros Hretries Hfail. split.
  - unfold sendWithRetry.
    destruct (retryLoop_all_fail host fn (debug self) Hfail
                (Z.to_nat (maxRetries self + 1)) 0 None self e 0)
      as (e' & last & -> & Hlast); [done|by destruct (debug self)|].
    exists e'. rewrite Hlast. simpl. do 3 f_equal. lia.
  - intros a b. by vm_compute.
Qed.

Lemma sendWithRetry_gives_up_witness :
  let self := new countingOptions in
  (∃ e',
     sendWithRetry (countedHost mockHost) (counted alwaysFails)
       (self, (mockWorld true, 0))
     = (Ok (),
        (set_circuitBreaker
           (CircuitBreaker.recordFailure (clock mockHost e') (circuitBreaker self))
           self,
         (e', maxRetries self + 1)))) ∧
  (∀ a b : string,
     let s := sendLogs mockHost [makeLog a; makeLog b]
                (new retryOptions, mockWorld true) in
     s.1 = Ok () ∧
     callCount s.2.2 = 2 ∧ sentLogs s.2.2 = [] ∧
     CircuitBreaker.failureCount (circuitBreaker s.2.1) = 1 ∧
     logBuffer s.2.1 = []).
Proof.
  intros self.
  apply (sendWithRetry_gives_up mockHost alwaysFails self (mockWorld true)).
  - simpl. lia.
  - intros m. by eexists.
Defined.

(** C3, as the claim states it, fails for a send function that rejects
    with a value [String()] cannot convert: with [maxRetries = 1] it is
    invoked once, not twice; [recordFailure()] is not called, the breaker
    staying as it was; and the [TypeError] of the conversion reaches the
    caller.  It also fails below [maxRetries = -1], where the number of
    invocations, none, is not [maxRetries + 1]. *)
Lemma sendWithRetry_unconvertible_counterexample :
  maxRetries (new countingOptions) = 1 ∧
  sendWithRetry (countedHost mockHost) (counted rejectsWithBareObject)
    (new countingOptions, (mockWorld true, 0))
  = (Throw (new_Error "Cannot convert object to primitive value"),
     (new countingOptions, (mockWorld true, 1))) ∧
  maxRetries (new countingOptionsBelow) + 1 = -1 ∧
  (sendWithRetry (countedHost mockHost) (counted alwaysFails)
     (new countingOptionsBelow, (mockWorld true, 0))).2.2.2 = 0.
Proof. by vm_compute. Qed.

Section Flush.
Context {Env : Type} (host : Host Env).
Implicit Types (self : t Env) (e : Env).

(** What [flush] does once the breaker has let it pass. *)
Lemma flush_passed self e cb :
  CircuitBreaker.canAttempt (clock host e) (circuitBreaker self) = (true, cb) →
  flush host (self, e)
  = let self' :=
      set_spanBuffer [] (set_logBuffer [] (set_circuitBreaker cb self)) in
    bind
      (if 0 <? Z.of_nat (length (logBuffer self))
       then sendWithRetry host (t_sendLogs (inner self) (logBuffer self))
       else ret ())
      (fun _ =>
         match t_sendSpans (inner self) with
         | Some sendSpans =>
             if 0 <? Z.of_nat (length (spanBuffer self))
             then sendWithRetry host (sendSpans (spanBuffer self))
             else ret ()
         | None => ret ()
         end)
      (self', e).
Proof. intros Hcan. unfold flush. by rewrite Hcan. Qed.

Lemma flush_refused self e cb :
  CircuitBreaker.canAttempt (clock host e) (circuitBreaker self) = (false, cb) →
  flush host (self, e) = (Ok (), (set_circuitBreaker cb self, e)).
Proof. intros Hcan. unfold flush. by rewrite Hcan. Qed.

(** A flush that the breaker lets pass leaves both buffers empty and
    changes nothing else of the transport but the breaker, whatever it
    sends and however the sends end. *)
Lemma flush_passed_frame self e cb :
  CircuitBreaker.canAttempt (clock host e) (circuitBreaker self) = (true, cb) →
  ∃ cb', (flush host (self, e)).2.1
         = set_circuitBreaker cb' (set_spanBuffer [] (set_logBuffer [] self)).
Proof.
  intros Hcan. rewrite (flush_passed self e cb Hcan). cbv zeta.
  unfold bind, ret.
  set (self0 := set_spanBuffer [] (set_logBuffer [] (set_circuitBreaker cb self))).
  assert (Hfirst : ∃ r cb1 e1,
            (if 0 <? Z.of_nat (length (logBuffer self))
             then sendWithRetry host (t_sendLogs (inner self) (logBuffer self))
             else λ s, (Ok (), s)) (self0, e)
            = (r, (set_circuitBreaker cb1 self0, e1))).
  { destruct (0 <? Z.of_nat (length (logBuffer self))).
    - destruct (sendWithRetry_frame host
                  (t_sendLogs (inner self) (logBuffer self)) self0 e)
        as [cb1 Hcb1].
      destruct (sendWithRetry host _ (self0, e)) as [r [x e1]].
      simpl in Hcb1. subst x. by exists r, cb1, e1.
    - exists (Ok ()), cb, e. by destruct self. }
  destruct Hfirst as (r & cb1 & e1 & ->).
  destruct r as [[]|err]; [|by exists cb1].
  destruct (t_sendSpans (inner self)) as [f|]; [|by exists cb1].
  destruct (0 <? Z.of_nat (length (spanBuffer self))); [|by exists cb1].
  destruct (sendWithRetry_frame host (f (spanBuffer self))
              (set_circuitBreaker cb1 self0) e1) as [cb2 ->].
  by exists cb2.
Qed.


(** C9.  When the inner transport has no [sendSpans], every [flush()] that
    the breaker lets pass empties the span buffer, and does exactly what it
    does on a transport whose span buffer was empty from the start: no send
    is attempted for the spans and the breaker hears neither
    [recordSuccess()] nor [recordFailure()] about them.  With no logs
    queued either, the flush changes nothing but the two buffers and the
    breaker's move made by [canAttempt()]. *)
Theorem flush_discards_spans_without_sendSpans self e :
  t_sendSpans (inner self) = None →
  (CircuitBreaker.canAttempt (clock host e) (circuitBreaker self)).1 = true →
  spanBuffer (flush host (self, e)).2.1 = [] ∧
  flush host (self, e) = flush host (set_spanBuffer [] self, e) ∧
  (logBuffer self = [] →
   flush host (self, e)
   = (Ok (),
      (set_spanBuffer []
         (set_circuitBreaker
            (CircuitBreaker.canAttempt (clock host e) (circuitBreaker self)).2
            self), e))).
Proof.
  intros Hnone Hpass.
  destruct (CircuitBreaker.canAttempt (clock host e) (circuitBreaker self))
    as [ok cb] eqn:Hcan. simpl in Hpass. subst ok.
  assert (Hcan' : CircuitBreaker.canAttempt (clock host e)
                    (circuitBreaker (set_spanBuffer [] self)) = (true, cb))
    by exact Hcan.
  rewrite (flush_passed self e cb Hcan).
  rewrite (flush_passed (set_spanBuffer [] self) e cb Hcan').
  simpl. rewrite Hnone. unfold bind, ret. split; [|split].
  - destruct (0 <? Z.of_nat (length (logBuffer self))); [|done].
    destruct (sendWithRetry_frame host
                (t_sendLogs (inner self) (logBuffer self))
                (set_spanBuffer [] (set_logBuffer [] (set_circuitBreaker cb self)))
                e) as [cb1 Hcb1].
    destruct (sendWithRetry host _ _) as [r [x e']]. simpl in *.
    subst x. by destruct r.
  - reflexivity.
  - intros Hlogs. rewrite Hlogs. simpl.
    f_equal. f_equal. destruct self; simpl in *. by subst.
Qed.

End Flush.

Lemma flush_discards_spans_without_sendSpans_witness :
  let self :=
    set_spanBuffer [makeSpan "s1"; makeSpan "s2"]
      (new (mkOptions _ mockInnerLogsOnly None None None None None None None None)) in
  let e := mockWorld false in
  spanBuffer (flush mockHost (self, e)).2.1 = [] ∧
  flush mockHost (self, e) = flush mockHost (set_spanBuffer [] self, e) ∧
  (logBuffer self = [] →
   flush mockHost (self, e)
   = (Ok (),
      (set_spanBuffer []
         (set_circuitBreaker
            (CircuitBreaker.canAttempt (clock mockHost e) (circuitBreaker self)).2
            self), e))).
Proof.
  intros self e.
  apply (flush_discards_spans_without_sendSpans mockHost self e).
  - reflexivity.
  - reflexivity.
Defined.


Section Capacity.
Context {Env : Type} (host : Host Env) (options : BatchTransportOptions Env).
Implicit Types (self : t Env) (e : Env).





End Capacity.

Section Dropping.
Context {Env : Type} (host : Host Env).
Implicit Types (self : t Env) (e : Env).

(** The loops of [sendLogs] and [sendSpans] in closed form, in any state:
    the incoming items are appended as long as there is room under
    [maxBufferSize], the others are dropped. *)
Lemma pushLog_take logs self :
  foldl pushLog self logs
  = set_logBuffer
      (logBuffer self
         ++ take (Z.to_nat (maxBufferSize self
                            - Z.of_nat (length (logBuffer self)))) logs)
      self.
Proof.
  revert self. induction logs as [|log logs IH]; intros self.
  - by rewrite take_nil, app_nil_r, set_logBuffer_id.
  - cbn [foldl]. rewrite IH. unfold pushLog.
    destruct (Z.leb_spec (maxBufferSize self) (Z.of_nat (length (logBuffer self))))
      as [Hfull|Hroom].
    + replace (Z.to_nat (maxBufferSize self - Z.of_nat (length (logBuffer self))))
        with 0%nat by lia.
      by rewrite !take_0.
    + cbn [logBuffer maxBufferSize set_logBuffer]. rewrite length_app. cbn [length].
      replace (Z.to_nat (maxBufferSize self - Z.of_nat (length (logBuffer self))))
        with (S (Z.to_nat (maxBufferSize self
                           - Z.of_nat (length (logBuffer self) + 1)))) by lia.
      cbn [take]. by rewrite <- app_assoc.
Qed.

Lemma pushSpan_take spans self :
  foldl pushSpan self spans
  = set_spanBuffer
      (spanBuffer self
         ++ take (Z.to_nat (maxBufferSize self
                            - Z.of_nat (length (spanBuffer self)))) spans)
      self.
Proof.
  revert self. induction spans as [|span spans IH]; intros self.
  - rewrite take_nil, app_nil_r. by destruct self.
  - cbn [foldl]. rewrite IH. unfold pushSpan.
    destruct (Z.leb_spec (maxBufferSize self) (Z.of_nat (length (spanBuffer self))))
      as [Hfull|Hroom].
    + replace (Z.to_nat (maxBufferSize self - Z.of_nat (length (spanBuffer self))))
        with 0%nat by lia.
      by rewrite !take_0.
    + cbn [spanBuffer maxBufferSize set_spanBuffer]. rewrite length_app. cbn [length].
      replace (Z.to_nat (maxBufferSize self - Z.of_nat (length (spanBuffer self))))
        with (S (Z.to_nat (maxBufferSize self
                           - Z.of_nat (length (spanBuffer self) + 1)))) by lia.
      cbn [take]. by rewrite <- app_assoc.
Qed.

End Dropping.





Section Batching.
Context {Env : Type} (host : Host Env).
Implicit Types (self : t Env) (e : Env).

Lemma appendEach_app l1 l2 (s : t Env * Env) :
  appendEach host (l1 ++ l2) s = appendEach host l2 (appendEach host l1 s).
Proof. revert s. induction l1 as [|x l1 IH]; intros s; simpl; [done|apply IH]. Qed.

Lemma pushLog_batchSize self log : batchSize (pushLog self log) = batchSize self.
Proof. unfold pushLog. by destruct (_ <=? _). Qed.

Lemma pushLog_length self log :
  (length (logBuffer (pushLog self log)) ≤ length (logBuffer self) + 1)%nat.
Proof.
  unfold pushLog. destruct (_ <=? _); simpl; [lia|].
  rewrite length_app. simpl. lia.
Qed.

(** Below [batchSize] an append only runs the loop of [sendLogs]. *)
Lemma appendEach_quiet logs self e :
  Z.of_nat (length (logBuffer self) + length logs) < batchSize self →
  appendEach host logs (self, e) = (foldl pushLog self logs, e).
Proof.
  revert self. induction logs as [|log logs IH]; intros self Hlt; simpl; [done|].
  pose proof (pushLog_length self log) as Hlen.
  simpl in Hlt.
  destruct (Z.leb_spec (batchSize (pushLog self log))
              (Z.of_nat (length (logBuffer (pushLog self log))))) as [Hge|_].
  - rewrite pushLog_batchSize in Hge. lia.
  - simpl. apply IH. rewrite pushLog_batchSize. lia.
Qed.

(** The calls that the retry loop makes of a spied [sendLogs]: the same
    batch each time, at least once and at most once per iteration; once
    only when the first call succeeds. *)
Lemma retryLoop_spied (inner : Transport Env) batch remaining attempt
    lastError (self : t (Env * list call)) e cs :
  ∃ n,
    (n ≤ remaining)%nat ∧ ((1 ≤ remaining)%nat → (1 ≤ n)%nat) ∧
    (retryLoop (spiedHost host) (t_sendLogs (spied inner) batch) remaining
       attempt lastError self (e, cs)).2.2.2
    = cs ++ replicate n (CallSendLogs batch) ∧
    ((t_sendLogs inner batch e).1 = Ok () → (n ≤ 1)%nat).
Proof.
  revert attempt lastError e cs.
  induction remaining as [|k IH]; intros attempt lastError e cs.
  - exists 0%nat. simpl. rewrite app_nil_r. repeat split; lia.
  - cbn [retryLoop]. cbn [t_sendLogs spied].
    destruct (t_sendLogs inner batch e) as [[[]|error] e1]; cbn [fst snd].
    + exists 1%nat. repeat split; lia.
    + assert (Hone : ∃ n, (n ≤ S k)%nat ∧ ((1 ≤ S k)%nat → (1 ≤ n)%nat) ∧
                cs ++ [CallSendLogs batch]
                = cs ++ replicate n (CallSendLogs batch) ∧
                (Throw error = Ok () → (n ≤ 1)%nat)).
      { exists 1%nat. repeat split; lia. }
      destruct (toLastError error) as [message|err]; [|exact Hone].
      assert (Hmore : ∀ e2,
                ∃ n, (n ≤ S k)%nat ∧ ((1 ≤ S k)%nat → (1 ≤ n)%nat) ∧
                  (retryLoop (spiedHost host) (t_sendLogs (spied inner) batch)
                     k (attempt + 1) (Some message) self
                     (e2, cs ++ [CallSendLogs batch])).2.2.2
                  = cs ++ replicate n (CallSendLogs batch) ∧
                  (Throw error = Ok () → (n ≤ 1)%nat)).
      { intros e2.
        destruct (IH (attempt + 1) (Some message) e2 (cs ++ [CallSendLogs batch]))
          as (n & Hn & _ & Hcs & _).
        exists (S n). rewrite Hcs, <- app_assoc. repeat split; try done; lia. }
      destruct (attempt <? maxRetries self); [|apply Hmore].
      destruct (debugMessage (debug self) message); [apply Hmore|exact Hone].
Qed.

End Batching.

(** C2, as the code has it.  Take a transport just built, no manual flush
    and no timer tick, and [batchSize] logs appended one by one.  During
    the first [batchSize - 1] appends the inner transport is never
    invoked and the world stays as it was.  If, moreover,
    [batchSize <= maxBufferSize] and [maxRetries >= 0], the [batchSize]-th
    append empties the buffer and invokes the inner transport's
    [sendLogs], and nothing else of it, at least once and at most
    [maxRetries + 1] times, each time with the batch of all the entries in
    the order of their appending; exactly once when the first send
    succeeds or [maxRetries = 0]. *)
Theorem batch_sent_at_batchSize {Env : Type} (host : Host Env)
    (options : BatchTransportOptions Env) (e0 : Env)
    (logs : list InternalLogEntry) (last : InternalLogEntry) :
  let bs := default 100 (o_batchSize options) in
  let mb := default 10000 (o_maxBufferSize options) in
  let mr := default 3 (o_maxRetries options) in
  let batch := logs ++ [last] in
  let run l :=
    appendEach (spiedHost host) l (new (spiedOptions options), (e0, [])) in
  Z.of_nat (length batch) = bs →
  (∀ k, (run (take k logs)).2 = (e0, [])) ∧
  (bs ≤ mb → 0 ≤ mr →
   logBuffer (run batch).1 = [] ∧
   ∃ n : nat,
     (1 ≤ n)%nat ∧ Z.of_nat n ≤ mr + 1 ∧
     (run batch).2.2 = replicate n (CallSendLogs batch) ∧
     ((t_sendLogs (o_inner options) batch e0).1 = Ok () ∨ mr = 0 → n = 1%nat)).
Proof.
  intros bs mb mr batch run Hlen.
  subst batch. rewrite length_app in Hlen. simpl in Hlen.
  assert (Hquiet : ∀ l, (length l ≤ length logs)%nat →
            run l = (foldl pushLog (new (spiedOptions options)) l, (e0, []))).
  { intros l Hl. subst run. simpl. apply appendEach_quiet. simpl.
    fold bs. lia. }
  split.
  - intros k. rewrite Hquiet; [done|]. rewrite length_take. lia.
  - intros Hfit Hmr.
    set (self1 := set_logBuffer (logs ++ [last]) (new (spiedOptions options))).
    assert (Hrun : run (logs ++ [last])
             = (flush (spiedHost host) (self1, (e0, []))).2).
    { unfold run at 1. rewrite appendEach_app. fold (run logs).
      rewrite Hquiet by done. rewrite pushLog_loop by (simpl; fold mb; lia).
      simpl. fold mb. rewrite Nat.sub_0_r, take_ge by lia.
      unfold sendLogs. cbn [foldl]. unfold pushLog. cbn -[flush new].
      change (maxBufferSize (new (spiedOptions options))) with mb.
      change (batchSize (new (spiedOptions options))) with bs.
      destruct (Z.leb_spec mb (Z.of_nat (length logs))) as [Hfull|_]; [lia|].
      cbn -[flush new]. rewrite length_app. cbn -[flush new].
      change (batchSize (new (spiedOptions options))) with bs.
      destruct (Z.leb_spec bs (Z.of_nat (length logs + 1))) as [_|Hlt]; [|lia].
      done. }
    rewrite Hrun. clear Hrun Hquiet run.
    assert (Hcan : CircuitBreaker.canAttempt (clock (spiedHost host) (e0, []))
                     (circuitBreaker self1)
                   = (true, circuitBreaker self1)) by reflexivity.
    split.
    + destruct (flush_passed_frame (spiedHost host) self1 (e0, []) _ Hcan)
        as [cb' ->]. done.
    + rewrite (flush_passed (spiedHost host) self1 (e0, []) _ Hcan).
      cbv zeta. unfold bind, ret.
      change (logBuffer self1) with (logs ++ [last]).
      change (spanBuffer self1) with (@nil Span).
      change (inner self1) with (spied (o_inner options)).
      destruct (Z.ltb_spec 0 (Z.of_nat (length (logs ++ [last])))) as [_|Hle];
        [|rewrite length_app in Hle; simpl in Hle; lia].
      set (self0 := set_spanBuffer [] (set_logBuffer []
                      (set_circuitBreaker (circuitBreaker self1) self1))).
      destruct (retryLoop_spied host (o_inner options) (logs ++ [last])
                  (Z.to_nat (mr + 1)) 0 None self0 e0 [])
        as (n & Hn & Hpos & Hcalls & Hone).
      exists n.
      assert (Hworld :
        (match sendWithRetry (spiedHost host)
                 (t_sendLogs (spied (o_inner options)) (logs ++ [last]))
                 (self0, (e0, [])) with
         | (Ok a, s') =>
             match t_sendSpans (spied (o_inner options)) with
             | Some sendSpans =>
                 if 0 <? Z.of_nat (length (@nil Span))
                 then sendWithRetry (spiedHost host) (sendSpans [])
                 else λ s, (Ok (), s)
             | None => λ s, (Ok (), s)
             end s'
         | (Throw err, s') => (Throw err, s')
         end).2.2
        = (retryLoop (spiedHost host)
             (t_sendLogs (spied (o_inner options)) (logs ++ [last]))
             (Z.to_nat (mr + 1)) 0 None self0 (e0, [])).2.2).
      { unfold sendWithRetry.
        change (maxRetries self0) with mr.
        destruct (retryLoop _ _ _ _ _ _ _) as [[[|lastError]|err] [self' w]];
          cbn [fst snd].
        - by destruct (t_sendSpans (spied (o_inner options))).
        - destruct (debugMessage _ _); [|done].
          by destruct (t_sendSpans (spied (o_inner options))).
        - done. }
      rewrite Hworld, Hcalls. simpl.
      split; [apply Hpos; lia|]. split; [lia|]. split; [done|].
      intros [Hok|Hzero]; [specialize (Hone Hok)|subst mr; rewrite Hzero in Hn];
        (assert (1 ≤ n)%nat by (apply Hpos; lia)); simpl in *; lia.
Qed.

(** C2, as the claim states it, fails in three ways.  With a buffer
    smaller than a batch ([batchSize = 2], [maxBufferSize = 1]) the second
    append is dropped and the inner transport is never invoked.  With a
    send that fails and [maxRetries = 1], the second append invokes it
    twice.  With [maxRetries = -1] the second append flushes without an
    attempt to send. *)
Lemma batch_sent_exactly_once_counterexample :
  callCount
    (appendEach mockHost [makeLog "a"; makeLog "b"]
       (new smallBufferOptions, mockWorld false)).2 = 0 ∧
  callCount
    (appendEach mockHost [makeLog "a"; makeLog "b"]
       (new retryOptions, mockWorld true)).2 = 2 ∧
  callCount
    (appendEach mockHost [makeLog "a"; makeLog "b"]
       (new noAttemptOptions, mockWorld false)).2 = 0.
Proof. by vm_compute. Qed.

Lemma batch_sent_at_batchSize_witness :
  let options := dropOptions (Some 2) in
  let logs := [makeLog "a"] in
  let last := makeLog "b" in
  let batch := logs ++ [last] in
  let run l :=
    appendEach (spiedHost mockHost) l
      (new (spiedOptions options), (mockWorld false, [])) in
  (∀ k, (run (take k logs)).2 = (mockWorld false, [])) ∧
  logBuffer (run batch).1 = [] ∧
  ∃ n : nat,
    (1 ≤ n)%nat ∧ Z.of_nat n ≤ 0 + 1 ∧
    (run batch).2.2 = replicate n (CallSendLogs batch) ∧
    ((t_sendLogs (o_inner options) batch (mockWorld false)).1 = Ok () ∨ 0 = 0 →
     n = 1%nat).
Proof.
  intros options logs last batch run.
  destruct (batch_sent_at_batchSize mockHost options (mockWorld false) logs last)
    as [Hquiet Hsent].
  - reflexivity.
  - split; [exact Hquiet|]. apply Hsent; simpl; lia.
Defined.


(** [tests/transport-batch.test.ts] on the mock transport: a batch of three
    is sent by the third append; an explicit flush sends the log and the
    span queued; a flush of empty buffers calls nothing. *)
Example batch_test_runs :
  let size3 := mkOptions _ mockInner (Some 3) (Some 999999) None (Some 0)
                 None None None None in
  let big := mkOptions _ mockInner (Some 1000) (Some 999999) None (Some 0)
               None None None None in
  let two := appendEach mockHost [makeLog "a"; makeLog "b"]
               (new size3, mockWorld false) in
  let three := (sendLogs mockHost [makeLog "c"] two).2 in
  let both := (flush mockHost
                 (sendSpans mockHost [makeSpan "s1"]
                    (sendLogs mockHost [makeLog "l1"]
                       (new big, mockWorld false)).2).2).2 in
  sentLogs two.2 = [] ∧
  sentLogs three.2 = [[makeLog "a"; makeLog "b"; makeLog "c"]] ∧
  sentLogs both.2 = [[makeLog "l1"]] ∧
  sentSpans both.2 = [[makeSpan "s1"]] ∧
  callCount (flush mockHost (new big, mockWorld false)).2.2 = 0.
Proof. by vm_compute. Qed.


End BatchTransportFacts.

(** ** The hub *)

Module HubFacts.
Import Js Types Hub.

(** C8, as the code has it.  When the hub holds no client,
    [captureError] and [captureLog] return without throwing and leave the
    hub as it was; [addBreadcrumb] returns without throwing and leaves the
    hub without client, but it has appended the breadcrumb to the hub's
    global scope. *)
Theorem capture_without_client {Client Options : Type}
    (api : ClientApi Client Options) (hub : t Client) :
  client hub = None →
  (∀ error metadata, captureError api error metadata hub = (Ok (), hub)) ∧
  (∀ level message metadata,
     captureLog api level message metadata hub = (Ok (), hub)) ∧
  (∀ breadcrumb,
     addBreadcrumb api breadcrumb hub
     = (Ok (),
        {| client := None;
           globalScope := Scope.addBreadcrumb breadcrumb (globalScope hub) |})).
Proof.
  intros Hnone. unfold captureError, captureLog, addBreadcrumb.
  rewrite Hnone. by repeat split.
Qed.

Lemma capture_without_client_witness :
  (∀ error metadata, captureError idleApi error metadata noClient = (Ok (), noClient)) ∧
  (∀ level message metadata,
     captureLog idleApi level message metadata noClient = (Ok (), noClient)) ∧
  (∀ breadcrumb,
     addBreadcrumb idleApi breadcrumb noClient
     = (Ok (),
        {| client := None;
           globalScope := Scope.addBreadcrumb breadcrumb (globalScope noClient) |})).
Proof. apply (capture_without_client idleApi noClient). reflexivity. Defined.

(** C8, as the claim states it, fails for [addBreadcrumb]: on a hub
    without client it is not a no-op, the global scope holds one more
    breadcrumb afterwards. *)
Lemma addBreadcrumb_without_client_counterexample :
  getClient noClient = None ∧
  Scope.getBreadcrumbs (getScope noClient) = [] ∧
  Scope.getBreadcrumbs
    (getScope (addBreadcrumb idleApi hubBreadcrumb noClient).2)
  = [hubBreadcrumb] ∧
  (addBreadcrumb idleApi hubBreadcrumb noClient).2 ≠ noClient.
Proof.
  repeat split.
  intros Heq.
  apply (f_equal (λ h, Scope.getBreadcrumbs (getScope h))) in Heq.
  discriminate Heq.
Qed.

End HubFacts.

(** ** The error serializer *)

Module ErrorSerializerFacts.
Import Js ErrorSerializer.

Section Strings.
Variable JSON_stringify : gmap nat object → value → result (option string).
Variable exponential : Z → string.
Abbreviation serialize := (serializeError JSON_stringify exponential).
Abbreviation ok := (node_ok JSON_stringify).

Lemma stackFrames_ok_iff stack :
  (∃ frames, stackFrames stack = Ok frames)
  ↔ is_string stack || negb (truthy stack) = true.
Proof.
  destruct stack as [| |[]|n|s|a]; simpl; try (split; [done|by eexists]);
    try (split; [by intros [??]|done]).
  destruct (n =? 0); simpl; [split; [done|by eexists]|split; [by intros [??]|done]].
Qed.

(** On a chain that ends in time and whose values are all as
    [serializeError] needs them, the result is a structured exception with
    string fields at every level. *)
Lemma well_formed_result depth h v :
  ends_within depth h v = true →
  Forall (λ x, ok h x = true) (causeChain depth h v) →
  ∃ exn, serialize depth h v = Ok exn ∧
         Forall (λ l, string_fields l = true) (levels exn).
Proof.
  revert v. induction depth as [|depth IH]; intros v Hends Hchain; [done|].
  cbn [ends_within] in Hends. cbn [causeChain] in Hchain.
  apply Forall_cons in Hchain as [Hv Hrest].
  cbn [serializeError].
  destruct v as [| |b|n|s|a];
    try (eexists; split; [done|]; by repeat constructor).
  unfold next_cause in Hends, Hrest. unfold node_ok in Hv.
  destruct (deref h a) as [e|obj].
  - apply andb_prop in Hv as [Hv Hstack]. apply andb_prop in Hv as [Hname Hmsg].
    apply stackFrames_ok_iff in Hstack as [frames ->].
    destruct (truthy (e_cause e)).
    + destruct (IH (e_cause e) Hends Hrest) as (c & -> & Hc).
      eexists. split; [done|]. cbn [levels cause]. constructor; [|done].
      unfold string_fields. simpl. by rewrite Hname, Hmsg.
    + eexists. split; [done|]. constructor; [|constructor].
      unfold string_fields. simpl. by rewrite Hname, Hmsg.
  - destruct (get obj "message") as [| |b|n|s|a'];
      try (eexists; split; [done|]; by repeat constructor);
      simpl in Hv;
      destruct (JSON_stringify h (VRef a)) as [[s|]|err]; try done;
      eexists; (split; [done|]); by repeat constructor.
Qed.

(** Only such a chain gives a result with string fields at every level. *)
Lemma result_well_formed depth h v exn :
  serialize depth h v = Ok exn →
  Forall (λ l, string_fields l = true) (levels exn) →
  ends_within depth h v = true ∧
  Forall (λ x, ok h x = true) (causeChain depth h v).
Proof.
  revert v exn. induction depth as [|depth IH]; intros v exn Hr Hl; [done|].
  cbn [serializeError] in Hr. cbn [ends_within causeChain].
  destruct v as [| |b|n|s|a]; try (split; [done|by repeat constructor]).
  unfold next_cause. unfold node_ok at 1.
  destruct (deref h a) as [e|obj] eqn:Ha.
  - destruct (stackFrames (e_stack e)) as [frames|err] eqn:Hst; [|done].
    assert (is_string (e_stack e) || negb (truthy (e_stack e)) = true) as Hstack.
    { apply stackFrames_ok_iff. by eexists. }
    destruct (truthy (e_cause e)).
    + destruct (serialize depth h (e_cause e)) as [c|err] eqn:Hc; [|done].
      simplify_eq. cbn [levels cause] in Hl.
      apply Forall_cons in Hl as [Hhere Hbelow].
      destruct (IH _ _ Hc Hbelow) as [Hends Hchain].
      split; [done|]. constructor; [|done].
      unfold string_fields in Hhere. simpl in Hhere.
      unfold node_ok. by rewrite Ha, Hhere, Hstack.
    + simplify_eq. apply Forall_cons in Hl as [Hhere _].
      split; [done|]. constructor; [|constructor].
      unfold string_fields in Hhere. simpl in Hhere.
      unfold node_ok. by rewrite Ha, Hhere, Hstack.
  - split; [done|]. constructor; [|constructor].
    unfold node_ok. rewrite Ha.
    destruct (get obj "message") as [| |b|n|s|a']; try done; simpl;
      destruct (JSON_stringify h (VRef a)) as [[s|]|err]; try done;
      simplify_eq; by apply Forall_cons in Hl as [Hhere _].
Qed.

(** A chain that does not end in time ends in a [RangeError], unless
    something else is thrown before. *)
Lemma endless_throws depth h v :
  ends_within depth h v = false → ∃ err, serialize depth h v = Throw err.
Proof.
  revert v. induction depth as [|depth IH]; intros v Hends; [by eexists|].
  cbn [ends_within] in Hends. cbn [serializeError].
  destruct v as [| |b|n|s|a]; try done.
  unfold next_cause in Hends. destruct (deref h a) as [e|obj]; [|done].
  destruct (stackFrames (e_stack e)); [|by eexists].
  destruct (truthy (e_cause e)); [|done].
  destruct (IH _ Hends) as [err ->]. by eexists.
Qed.

End Strings.

(** C10, as the code has it.  [serializeError] returns a structured
    exception whose [type] and [message] are strings, at every level of
    its causes, exactly on these inputs: the chain of [cause]s that starts
    at the value ends, within the depth of nested calls that the call
    stack has room for; every [Error] on the chain has a string [name] and
    [message] and a [stack] that is a string or falsy; and an object that
    is not an [Error] has a string [message] or is given a text by
    [JSON.stringify].  When the chain does not end in time the call
    throws. *)
Theorem serializeError_string_fields
    (JSON_stringify : gmap nat object → value → result (option string))
    (exponential : Z → string)
    (depth : nat) (h : gmap nat object) (v : value) :
  ((ends_within depth h v = true ∧
    Forall (λ x, node_ok JSON_stringify h x = true) (causeChain depth h v))
   ↔ ∃ exn, serializeError JSON_stringify exponential depth h v = Ok exn ∧
            Forall (λ l, string_fields l = true) (levels exn)) ∧
  (ends_within depth h v = false →
   ∃ err, serializeError JSON_stringify exponential depth h v = Throw err).
Proof.
  split; [split|].
  - intros [Hends Hchain]. by apply well_formed_result.
  - intros (exn & Hr & Hl).
    by apply (result_well_formed JSON_stringify exponential depth h v exn).
  - apply endless_throws.
Qed.

(** The error with a cause of the test-suite, with room for five nested
    calls. *)
Lemma serializeError_string_fields_witness :
  ∃ exn, serializeError noJson noExponent 5 wrapped (VRef 0) = Ok exn ∧
         Forall (λ l, string_fields l = true) (levels exn).
Proof.
  apply (serializeError_string_fields noJson noExponent 5 wrapped (VRef 0)).
  split; [reflexivity|]. repeat constructor.
Defined.

(** C10, as the claim states it, fails in three ways.  An error that is
    its own cause gives no structured exception, whatever room the call
    stack has: the recursion ends in a [RangeError].  An error whose
    [name] was set to a number gives a [type] that is no string.  An error
    whose [stack] was set to a number makes [parseStackTrace] throw. *)
Lemma serializeError_self_cause_counterexample :
  (∀ depth,
     serializeError noJson noExponent depth selfCaused (VRef 0)
     = Throw RangeError) ∧
  (∃ exn, serializeError noJson noExponent 1 numberNamed (VRef 0) = Ok exn ∧
          type exn = VNum 404) ∧
  serializeError noJson noExponent 1 numberStack (VRef 0)
  = Throw (new_Error "stack.split is not a function").
Proof.
  split; [|split; [by eexists|done]].
  induction depth as [|depth IH]; [done|].
  cbn [serializeError].
  change (deref selfCaused 0)
    with (OError (mkError (VStr "Error") (VStr "loop") VUndefined (VRef 0) ∅ ∅)).
  cbn [e_stack e_cause stackFrames truthy]. by rewrite IH.
Qed.

(** [tests]: an error with a cause, a string, [null], [undefined] and a
    number. *)
Example serializeError_examples :
  (∃ exn c, serializeError noJson noExponent 2 wrapped (VRef 0) = Ok exn ∧
            message exn = VStr "wrapper" ∧ cause exn = Some c ∧
            type c = VStr "Error" ∧ message c = VStr "root cause") ∧
  (∃ exn, serializeError noJson noExponent 1 ∅ (VStr "simple error message")
          = Ok exn ∧
          type exn = VStr "Error" ∧ message exn = VStr "simple error message" ∧
          stacktrace exn = None) ∧
  (∃ exn, serializeError noJson noExponent 1 ∅ VNull = Ok exn ∧
          message exn = VStr "null") ∧
  (∃ exn, serializeError noJson noExponent 1 ∅ VUndefined = Ok exn ∧
          message exn = VStr "undefined") ∧
  (∃ exn, serializeError noJson noExponent 1 ∅ (VNum 42) = Ok exn ∧
          message exn = VStr "42").
Proof. repeat split; eexists; try eexists; by vm_compute. Qed.

End ErrorSerializerFacts.

(* ===================================================================== *)
(** * Further properties of the code *)
(* ===================================================================== *)

(** ** The circuit breaker *)

Module CircuitBreakerMore.
Import CircuitBreaker.

Lemma recordFailures_app times1 times2 cb :
  recordFailures (times1 ++ times2) cb
  = recordFailures times2 (recordFailures times1 cb).
Proof. unfold recordFailures. by rewrite foldl_app. Qed.

(** X1.  Counted from a [recordSuccess()], or from the constructor, the
    state after [n] consecutive [recordFailure()] calls is decided by [n]
    alone: OPEN when [n >= 1] and [n >= threshold], CLOSED otherwise; the
    counter stands at [n]. *)
Theorem failures_since_success (cb : t) (times : list Z) :
  let n := Z.of_nat (length times) in
  let after cb0 := recordFailures times cb0 in
  let expected :=
    if bool_decide (1 ≤ n ∧ threshold cb ≤ n) then OPEN else CLOSED in
  state (after (recordSuccess cb)) = expected ∧
  failureCount (after (recordSuccess cb)) = n ∧
  state (after (new (threshold cb) (resetMs cb))) = expected ∧
  failureCount (after (new (threshold cb) (resetMs cb))) = n.
Proof.
  assert (Hgen : ∀ cb0, state cb0 = CLOSED → failureCount cb0 = 0 →
            threshold cb0 = threshold cb →
            state (recordFailures times cb0)
            = (if bool_decide (1 ≤ Z.of_nat (length times)
                               ∧ threshold cb ≤ Z.of_nat (length times))
               then OPEN else CLOSED) ∧
            failureCount (recordFailures times cb0) = Z.of_nat (length times)).
  { intros cb0 Hst Hcnt Hth.
    induction times as [|now times [IHst IHcnt]] using rev_ind.
    - simpl. by rewrite Hst, Hcnt.
    - rewrite recordFailures_app. simpl.
      destruct (CircuitBreakerFacts.recordFailures_config times cb0) as [-> _].
      rewrite IHcnt, IHst, Hth, length_app. simpl. split; [|lia].
      destruct (Z.leb_spec (threshold cb) (Z.of_nat (length times) + 1));
        repeat case_bool_decide; try done; lia. }
  simpl. destruct (Hgen (recordSuccess cb)) as [H1 H2]; [done..|].
  destruct (Hgen (new (threshold cb) (resetMs cb))) as [H3 H4]; [done..|].
  done.
Qed.

(** X2.  Only [recordSuccess()] closes the circuit: from a state that is
    not CLOSED, no series of [recordFailure()] and [canAttempt()] calls,
    at whatever times, leads to CLOSED. *)
Theorem only_success_closes (cb : t) (calls : list call) :
  state cb ≠ CLOSED →
  Forall (λ c, c ≠ CallRecordSuccess) calls →
  state (execAll calls cb) ≠ CLOSED.
Proof.
  intros Hst Hcalls. revert cb Hst.
  induction Hcalls as [|c calls Hc _ IH]; intros cb Hst; [done|].
  unfold execAll. simpl. apply IH.
  destruct c as [|now|now]; [done| |]; simpl.
  - by destruct (threshold cb <=? failureCount cb + 1).
  - unfold canAttempt. destruct (state cb) eqn:Hs; [done| |simpl; congruence].
    destruct (elapsed_ok now cb); simpl; [done|congruence].
Qed.

Lemma only_success_closes_witness :
  state (execAll [CallCanAttempt 1500; CallRecordFailure 1600;
                  CallCanAttempt 9000; CallCanAttempt 9001]
           (recordFailures [1000; 1001; 1002] (new 3 1000))) ≠ CLOSED.
Proof.
  apply (only_success_closes
           (recordFailures [1000; 1001; 1002] (new 3 1000))).
  - discriminate.
  - repeat constructor; discriminate.
Defined.

(** X3.  A probe that is granted at some time is granted at every later
    time, as long as nothing else is recorded in between: waiting never
    takes a permission away. *)
Theorem canAttempt_monotone_in_time (cb : t) (now later : Z) :
  (canAttempt now cb).1 = true →
  now ≤ later →
  (canAttempt later cb).1 = true ∧
  (canAttempt later cb).2 = (canAttempt now cb).2.
Proof.
  unfold canAttempt, elapsed_ok. intros Hnow Hle.
  destruct (state cb); [done| |done].
  destruct (lastFailureTime cb) as [last|]; [|done].
  destruct (truthy (Some last)); [|done]. simpl in *.
  destruct (Z.leb_spec (resetMs cb) (now - last)); [|done].
  destruct (Z.leb_spec (resetMs cb) (later - last)); [done|lia].
Qed.

Lemma canAttempt_monotone_in_time_witness :
  let cb := recordFailures [1000; 1001; 1002] (new 3 1000) in
  (canAttempt 5000 cb).1 = true ∧
  (canAttempt 5000 cb).2 = (canAttempt 2002 cb).2.
Proof.
  apply (canAttempt_monotone_in_time
           (recordFailures [1000; 1001; 1002] (new 3 1000)) 2002 5000).
  - reflexivity.
  - lia.
Defined.

End CircuitBreakerMore.

(** ** The breadcrumb buffer *)

Module BreadcrumbBufferMore.
Import BreadcrumbBuffer.

(** X4.  A buffer built with a capacity of [0] or less does not stay
    empty: after any [add()] it holds exactly the entry added last. *)
Theorem nonpositive_capacity_keeps_last {A : Type} (cap : Z)
    (xs : list A) (x : A) :
  cap ≤ 0 →
  getAll (addAll (xs ++ [x]) (new (Some cap))) = [x].
Proof.
  intros Hcap. unfold addAll. rewrite foldl_app. simpl.
  set (b := foldl (λ acc y, add y acc) (new (Some cap)) xs).
  assert (Hb : maxSize b = cap ∧ (List.length (buffer b) ≤ 1)%nat).
  { subst b. induction xs as [|y xs [IHm IHl]] using rev_ind; [simpl; lia|].
    rewrite foldl_app. simpl. split; [done|]. rewrite IHm.
    destruct (Z.leb_spec cap (Z.of_nat (List.length (buffer (foldl (λ acc y0, add y0 acc) (new (Some cap)) xs)))));
      [|lia].
    unfold shift. rewrite length_app. simpl.
    destruct (buffer _) as [|z [|z' l]]; simpl in *; lia. }
  destruct Hb as [Hm Hl]. unfold getAll, add. simpl. rewrite Hm.
  destruct (Z.leb_spec cap (Z.of_nat (List.length (buffer b)))); [|lia].
  unfold shift. destruct (buffer b) as [|z [|z' l]]; simpl in *; [done|done|lia].
Qed.

Lemma nonpositive_capacity_keeps_last_witness :
  getAll (addAll ([1; 2] ++ [3]) (new (Some 0))) = [3].
Proof. apply (nonpositive_capacity_keeps_last 0 [1; 2] 3). lia. Defined.

(** X5.  Whatever the capacity and whatever the series of [add()] and
    [clear()] calls on a new buffer, its length never exceeds the capacity,
    or [1] when the capacity is smaller than that. *)
Theorem length_bounded_by_capacity {A : Type} (cap : option Z)
    (ops : list (op A)) :
  length (run ops (new cap)) ≤ Z.max 1 (default 100 cap).
Proof.
  unfold length.
  assert (Hinv : maxSize (run ops (new cap)) = default 100 cap ∧
                 Z.of_nat (List.length (buffer (run ops (new cap))))
                 ≤ Z.max 1 (default 100 cap)); [|by destruct Hinv].
  unfold run. induction ops as [|o ops [IHm IHl]] using rev_ind; [simpl; lia|].
  rewrite foldl_app. simpl. destruct o as [x|]; simpl; [|lia].
  split; [done|]. rewrite IHm, length_app. simpl.
  destruct (Z.leb_spec (default 100 cap)
              (Z.of_nat (List.length (buffer (foldl (λ acc o, match o with
                 | OpAdd x0 => add x0 acc | OpClear => clear acc end) (new cap) ops)))));
    [|lia].
  unfold shift. destruct (buffer _) as [|z l]; simpl in *; lia.
Qed.

End BreadcrumbBufferMore.

(** ** The trace context codec *)

Module TraceContextMore.
Import TraceContext.

Lemma code_inj (c : ascii) (n : N) : code c = n → c = ascii_of_N n.
Proof. intros <-. unfold code. by rewrite ascii_N_embedding. Qed.

Lemma length_append (s1 s2 : string) :
  String.length (s1 +:+ s2) = (String.length s1 + String.length s2)%nat.
Proof.
  induction s1 as [|c s1 IH]; [done|].
  change (String c s1 +:+ s2) with (String c (s1 +:+ s2)). simpl. by rewrite IH.
Qed.

(** What a group of the pattern takes from the head of a string. *)
Lemma hex_group_inv (n : nat) (s g rest : string) :
  hex_group n s = Some (g, rest) → valid_hex_id n g ∧ s = g +:+ rest.
Proof.
  revert s g rest. induction n as [|n IH]; intros s g rest Hg; simpl in Hg.
  - by simplify_eq.
  - destruct s as [|c s]; [done|].
    destruct (is_hex_lower c) eqn:Hc; [|done].
    destruct (hex_group n s) as [[g' rest']|] eqn:Hn; [|done].
    simpl in Hg. simplify_eq.
    destruct (IH _ _ _ Hn) as [[Hlen Hhex] ->].
    split; [|done]. split; simpl; [by rewrite Hlen|by rewrite Hc, Hhex].
Qed.

Lemma dash_inv (s rest : string) : dash s = Some rest → s = "-" +:+ rest.
Proof.
  destruct s as [|c s]; [done|]. simpl.
  destruct (N.eqb_spec (code c) 45) as [Hc|]; [|done].
  intros [= ->]. by rewrite (code_inj c 45 Hc).
Qed.

Lemma match_regex_inv (s g1 g2 g3 g4 : string) :
  match_TRACEPARENT_REGEX s = Some (g1, g2, g3, g4) →
  valid_hex_id 2 g1 ∧ valid_hex_id 32 g2 ∧
  valid_hex_id 16 g3 ∧ valid_hex_id 2 g4 ∧
  s = g1 +:+ "-" +:+ g2 +:+ "-" +:+ g3 +:+ "-" +:+ g4.
Proof.
  unfold match_TRACEPARENT_REGEX. intros Hm.
  destruct (hex_group 2 s) as [[a r1]|] eqn:H1; [|done]. cbn -[hex_group] in Hm.
  destruct (dash r1) as [r1'|] eqn:D1; [|done]. cbn -[hex_group] in Hm.
  destruct (hex_group 32 r1') as [[b r2]|] eqn:H2; [|done]. cbn -[hex_group] in Hm.
  destruct (dash r2) as [r2'|] eqn:D2; [|done]. cbn -[hex_group] in Hm.
  destruct (hex_group 16 r2') as [[c r3]|] eqn:H3; [|done]. cbn -[hex_group] in Hm.
  destruct (dash r3) as [r3'|] eqn:D3; [|done]. cbn -[hex_group] in Hm.
  destruct (hex_group 2 r3') as [[d r4]|] eqn:H4; [|done]. cbn -[hex_group] in Hm.
  destruct r4; [|done]. simplify_eq.
  apply hex_group_inv in H1 as [V1 ->]. apply hex_group_inv in H2 as [V2 ->].
  apply hex_group_inv in H3 as [V3 ->]. apply hex_group_inv in H4 as [V4 ->].
  apply dash_inv in D1 as ->. apply dash_inv in D2 as ->.
  apply dash_inv in D3 as ->.
  rewrite (TraceContextFacts.append_empty_r g4). done.
Qed.

(** What an accepted header looks like. *)
Lemma parseTraceparent_inv (header : string) (ctx : TraceContext) :
  parseTraceparent header = Some ctx →
  ∃ flags,
    valid_hex_id 2 (version ctx) ∧ valid_hex_id 32 (traceId ctx) ∧
    valid_hex_id 16 (parentSpanId ctx) ∧ valid_hex_id 2 flags ∧
    trim header
    = version ctx +:+ "-" +:+ traceId ctx +:+ "-" +:+ parentSpanId ctx
      +:+ "-" +:+ flags ∧
    sampled ctx = low_bit_set (parseInt16 flags).
Proof.
  unfold parseTraceparent.
  destruct (match_TRACEPARENT_REGEX (trim header)) as [[[[g1 g2] g3] g4]|] eqn:Hm;
    [|done].
  intros [= <-]. simpl.
  destruct (match_regex_inv _ _ _ _ _ Hm) as (V1 & V2 & V3 & V4 & Htrim).
  by exists g4.
Qed.

(** X6.  [parseTraceparent] accepts exactly the headers that, once
    trimmed, are four groups of 2, 32, 16 and 2 characters of [[0-9a-f]]
    joined by dashes; it returns the first three groups as they are, and
    [sampled] is the lowest bit of the fourth read as a hexadecimal
    number. *)
Theorem parseTraceparent_accepts_exactly (header : string) (ctx : TraceContext) :
  parseTraceparent header = Some ctx ↔
  ∃ flags,
    valid_hex_id 2 (version ctx) ∧ valid_hex_id 32 (traceId ctx) ∧
    valid_hex_id 16 (parentSpanId ctx) ∧ valid_hex_id 2 flags ∧
    trim header
    = version ctx +:+ "-" +:+ traceId ctx +:+ "-" +:+ parentSpanId ctx
      +:+ "-" +:+ flags ∧
    sampled ctx = low_bit_set (parseInt16 flags).
Proof.
  split; [apply parseTraceparent_inv|].
  intros (flags & V1 & V2 & V3 & V4 & Htrim & Hs). unfold parseTraceparent.
  rewrite Htrim.
  rewrite (TraceContextFacts.match_regex_groups _ _ _ _ V1 V2 V3 V4).
  destruct ctx. simpl in *. by rewrite Hs.
Qed.

(** X7.  A header whose trimmed length is not 55 characters is refused. *)
Theorem parseTraceparent_refuses_other_lengths (header : string) :
  String.length (trim header) ≠ 55%nat →
  parseTraceparent header = None.
Proof.
  intros Hlen. destruct (parseTraceparent header) as [ctx|] eqn:Hp; [|done].
  apply parseTraceparent_inv in Hp
    as (flags & [L1 _] & [L2 _] & [L3 _] & [L4 _] & Htrim & _).
  exfalso. apply Hlen. rewrite Htrim, !length_append, L1, L2, L3, L4. done.
Qed.

Lemma parseTraceparent_refuses_other_lengths_witness :
  parseTraceparent "00-short-00f067aa0ba902b7-01" = None.
Proof.
  apply (parseTraceparent_refuses_other_lengths "00-short-00f067aa0ba902b7-01").
  vm_compute. discriminate.
Defined.

Lemma trimStart_padding (l s : string) :
  all_whitespace l = true → trimStart (l +:+ s) = trimStart s.
Proof.
  induction l as [|c l IH]; [done|]. simpl. intros [Hc Hl]%andb_prop.
  change (String c l +:+ s) with (String c (l +:+ s)). simpl.
  rewrite Hc. by apply IH.
Qed.

Lemma trimEnd_whitespace (r : string) :
  all_whitespace r = true → trimEnd r = EmptyString.
Proof.
  induction r as [|c r IH]; [done|]. simpl. intros [Hc Hr]%andb_prop.
  by rewrite (IH Hr), Hc.
Qed.

Lemma trimEnd_padding (s r : string) :
  all_whitespace r = true → trimEnd (s +:+ r) = trimEnd s.
Proof.
  intros Hr. induction s as [|c s IH]; [by apply trimEnd_whitespace|].
  change (String c s +:+ r) with (String c (s +:+ r)). simpl. by rewrite IH.
Qed.

Lemma trim_padding_right (s r : string) :
  all_whitespace r = true → trim (s +:+ r) = trim s.
Proof.
  intros Hr. unfold trim. induction s as [|c s IH].
  - change (EmptyString +:+ r) with r. simpl.
    assert (trimStart r = EmptyString) as ->; [|done].
    clear -Hr. induction r as [|c r IH]; [done|]. simpl in *.
    apply andb_prop in Hr as [Hc Hr]. rewrite Hc. by apply IH.
  - change (String c s +:+ r) with (String c (s +:+ r)). simpl.
    destruct (is_whitespace c); [exact IH|].
    change (String c (s +:+ r)) with (String c s +:+ r).
    by apply trimEnd_padding.
Qed.

(** X8.  White space around a header does not matter: padded on either
    side with any white space, a header parses to the same result. *)
Theorem parseTraceparent_ignores_padding (l header r : string) :
  all_whitespace l = true → all_whitespace r = true →
  parseTraceparent (l +:+ header +:+ r) = parseTraceparent header.
Proof.
  intros Hl Hr. unfold parseTraceparent.
  assert (trim (l +:+ header +:+ r) = trim header) as ->; [|done].
  unfold trim at 1. rewrite trimStart_padding by done.
  fold (trim (header +:+ r)). by apply trim_padding_right.
Qed.

Lemma parseTraceparent_ignores_padding_witness :
  parseTraceparent
    ("  " +:+ "00-4bf92f3577b34da6a3ce929d0e0e4736-00f067aa0ba902b7-01" +:+ "  ")
  = parseTraceparent "00-4bf92f3577b34da6a3ce929d0e0e4736-00f067aa0ba902b7-01".
Proof.
  apply (parseTraceparent_ignores_padding "  "
           "00-4bf92f3577b34da6a3ce929d0e0e4736-00f067aa0ba902b7-01" "  ");
    reflexivity.
Defined.

(** X9.  Passing a parsed context on normalises it: the header that
    [createTraceparent] builds from the ids and the [sampled] flag of a
    parsed context parses again, to the same ids and flag, with version
    ["00"] whatever the incoming version and the other bits of its flags
    were. *)
Theorem reencoded_context_parses (header : string) (ctx : TraceContext) :
  parseTraceparent header = Some ctx →
  parseTraceparent
    (createTraceparent (traceId ctx) (parentSpanId ctx) (sampled ctx))
  = Some {| version := "00"; traceId := traceId ctx;
            parentSpanId := parentSpanId ctx; sampled := sampled ctx |}.
Proof.
  intros (flags & _ & VT & VS & _)%parseTraceparent_inv.
  unfold parseTraceparent. rewrite TraceContextFacts.trim_createTraceparent.
  change (createTraceparent (traceId ctx) (parentSpanId ctx) (sampled ctx))
    with ("00" +:+ "-" +:+ traceId ctx +:+ "-" +:+ parentSpanId ctx +:+ "-"
          +:+ (if sampled ctx then "01" else "00")).
  rewrite (TraceContextFacts.match_regex_groups "00" (traceId ctx)
             (parentSpanId ctx) (if sampled ctx then "01" else "00"));
    [by destruct (sampled ctx)|by split|done|done|by destruct (sampled ctx)].
Qed.

Lemma reencoded_context_parses_witness :
  parseTraceparent
    (createTraceparent "4bf92f3577b34da6a3ce929d0e0e4736" "00f067aa0ba902b7" true)
  = Some {| version := "00"; traceId := "4bf92f3577b34da6a3ce929d0e0e4736";
            parentSpanId := "00f067aa0ba902b7"; sampled := true |}.
Proof.
  apply (reencoded_context_parses
           "cc-4bf92f3577b34da6a3ce929d0e0e4736-00f067aa0ba902b7-ff"
           {| version := "cc"; traceId := "4bf92f3577b34da6a3ce929d0e0e4736";
              parentSpanId := "00f067aa0ba902b7"; sampled := true |}).
  reflexivity.
Defined.

End TraceContextMore.

(** ** The id generator *)

Module TraceIdFacts.
Import TraceContext TraceId.

Lemma valid_hex_id_app (n m : nat) (a b : string) :
  valid_hex_id n a → valid_hex_id m b → valid_hex_id (n + m) (a +:+ b).
Proof.
  intros [<- Ha] [<- Hb]. split; [by rewrite TraceContextMore.length_append|].
  induction a as [|c a IH]; [done|].
  change (String c a +:+ b) with (String c (a +:+ b)). simpl in *.
  apply andb_prop in Ha as [Hc Ha]. by rewrite Hc, IH.
Qed.

Lemma hexPair_valid (b : Byte.byte) : valid_hex_id 2 (hexPair b).
Proof. destruct b; by vm_compute. Qed.

Lemma hexOfBytes_valid (bytes : list Byte.byte) :
  valid_hex_id (2 * length bytes) (hexOfBytes bytes).
Proof.
  induction bytes as [|b bytes IH]; [done|]. simpl.
  replace (S (length bytes + S (length bytes + 0)))
    with (2 + 2 * length bytes)%nat by lia.
  apply valid_hex_id_app; [apply hexPair_valid|exact IH].
Qed.

Lemma bytesOfHex_pair (b : Byte.byte) (s : string) :
  bytesOfHex (hexPair b +:+ s) = cons b <$> bytesOfHex s.
Proof. destruct b; reflexivity. Qed.

Lemma bytesOfHex_hexOfBytes (bytes : list Byte.byte) :
  bytesOfHex (hexOfBytes bytes) = Some bytes.
Proof.
  induction bytes as [|b bytes IH]; [done|]. simpl.
  by rewrite bytesOfHex_pair, IH.
Qed.

Lemma randomHex_valid (random : nat → Byte.byte) (n : nat) :
  valid_hex_id (2 * n) (randomHex n random).
Proof.
  unfold randomHex.
  pose proof (hexOfBytes_valid (map random (seq 0 n))) as H.
  by rewrite length_map, length_seq in H.
Qed.

(** X10.  Whatever bytes the random source gives, [generateTraceId()]
    returns 32 and [generateSpanId()] 16 characters of [[0-9a-f]]; more
    generally [randomHex(n)] returns [2 n] of them. *)
Theorem generated_ids_are_valid (random : nat → Byte.byte) (n : nat) :
  valid_hex_id 32 (generateTraceId random) ∧
  valid_hex_id 16 (generateSpanId random) ∧
  valid_hex_id (2 * n) (randomHex n random).
Proof.
  split; [exact (randomHex_valid random 16)|].
  split; [exact (randomHex_valid random 8)|exact (randomHex_valid random n)].
Qed.

(** X11.  The id tells the bytes it was made from: two random sources
    that differ in one of the first [n] bytes give different
    [randomHex(n)] strings, hence different trace ids for [n = 16] and
    span ids for [n = 8]. *)
Theorem different_bytes_different_ids (r1 r2 : nat → Byte.byte) (n i : nat) :
  (i < n)%nat → r1 i ≠ r2 i →
  randomHex n r1 ≠ randomHex n r2.
Proof.
  intros Hi Hne Heq. unfold randomHex in Heq.
  apply (f_equal bytesOfHex) in Heq. rewrite !bytesOfHex_hexOfBytes in Heq.
  simplify_eq. apply Hne.
  apply (f_equal (λ l, l !! i)) in Heq.
  rewrite !list_lookup_fmap, !lookup_seq_lt in Heq by done.
  simpl in Heq. by simplify_eq.
Qed.

Lemma different_bytes_different_ids_witness :
  randomHex 16 (λ _, Byte.x00) ≠ randomHex 16 (λ i, if (i =? 3)%nat then Byte.xff else Byte.x00).
Proof.
  apply (different_bytes_different_ids
           (λ _, Byte.x00)
           (λ i, if (i =? 3)%nat then Byte.xff else Byte.x00) 16 3).
  - lia.
  - discriminate.
Defined.

(** X12.  The ids that the generator makes pass through a traceparent
    header: for all random bytes and every flag,
    [parseTraceparent(createTraceparent(generateTraceId(),
    generateSpanId(), b))] gives back the two ids and the flag. *)
Theorem generated_ids_roundtrip (r1 r2 : nat → Byte.byte) (b : bool) :
  parseTraceparent
    (createTraceparent (generateTraceId r1) (generateSpanId r2) b)
  = Some {| version := "00"; traceId := generateTraceId r1;
            parentSpanId := generateSpanId r2; sampled := b |}.
Proof.
  pose proof (randomHex_valid r1 16) as VT.
  pose proof (randomHex_valid r2 8) as VS.
  unfold parseTraceparent. rewrite TraceContextFacts.trim_createTraceparent.
  change (createTraceparent (generateTraceId r1) (generateSpanId r2) b)
    with ("00" +:+ "-" +:+ generateTraceId r1 +:+ "-" +:+ generateSpanId r2
          +:+ "-" +:+ (if b then "01" else "00")).
  rewrite (TraceContextFacts.match_regex_groups "00" (generateTraceId r1)
             (generateSpanId r2) (if b then "01" else "00"));
    [by destruct b|by split|done|done|by destruct b].
Qed.

(** The first byte [0x4b] gives the first two characters ["4b"]. *)
Example randomHex_example :
  randomHex 2 (λ i, if (i =? 0)%nat then Byte.x4b else Byte.xf9) = "4bf9".
Proof. reflexivity. Qed.

End TraceIdFacts.

(** ** The span manager *)

Module SpanManagerFacts.
Import Types SpanManager.

Lemma eqb_key (k k' : string) : String.eqb k k' = bool_decide (k = k').
Proof.
  destruct (String.eqb_spec k k');
    [by rewrite bool_decide_eq_true_2|by rewrite bool_decide_eq_false_2].
Qed.

Lemma map_get_set_eq key v m : map_get key (map_set key v m) = Some v.
Proof.
  induction m as [|[k w] m IH]; simpl; [by rewrite String.eqb_refl|].
  destruct (String.eqb k key) eqn:E; simpl; by rewrite E.
Qed.

Lemma map_get_set_ne key key' v m :
  key ≠ key' → map_get key' (map_set key v m) = map_get key' m.
Proof.
  intros Hne. induction m as [|[k w] m IH]; simpl.
  - rewrite eqb_key. by rewrite bool_decide_eq_false_2.
  - destruct (String.eqb k key) eqn:E; simpl.
    + apply String.eqb_eq in E as ->.
      rewrite !eqb_key. by rewrite !bool_decide_eq_false_2.
    + by rewrite IH.
Qed.

Lemma map_get_delete_ne key key' m :
  key ≠ key' → map_get key' (map_delete key m) = map_get key' m.
Proof.
  intros Hne. induction m as [|[k w] m IH]; simpl; [done|].
  destruct (String.eqb k key) eqn:E; simpl.
  - apply String.eqb_eq in E as ->. rewrite eqb_key.
    by rewrite bool_decide_eq_false_2.
  - by rewrite IH.
Qed.

Lemma map_get_None key (m : SpanMap) : map_get key m = None ↔ key ∉ m.*1.
Proof.
  induction m as [|[k w] m IH].
  - simpl. split; [intros _; apply not_elem_of_nil|done].
  - rewrite fmap_cons, not_elem_of_cons. simpl.
    destruct (String.eqb_spec k key) as [->|Hne].
    + split; [done|]. by intros [? _].
    + rewrite IH. split; [by split|by intros [_ ?]].
Qed.

Lemma map_delete_set_fresh key v m :
  map_get key m = None → map_delete key (map_set key v m) = m.
Proof.
  induction m as [|[k w] m IH]; simpl; [by rewrite String.eqb_refl|].
  destruct (String.eqb k key) eqn:E; [done|]. intros Hm. simpl.
  by rewrite E, IH.
Qed.

Lemma keys_set key v (m : SpanMap) :
  (map_set key v m).*1 = if bool_decide (key ∈ m.*1) then m.*1 else m.*1 ++ [key].
Proof.
  induction m as [|[k w] m IH]; [done|].
  cbn [map_set]. destruct (String.eqb_spec k key) as [->|Hne].
  - rewrite !fmap_cons. simpl.
    rewrite bool_decide_eq_true_2; [done|apply list_elem_of_here].
  - rewrite !fmap_cons, IH. simpl.
    destruct (decide (key ∈ m.*1)) as [Hin|Hnin].
    + rewrite !bool_decide_eq_true_2; [done|by apply list_elem_of_further|done].
    + rewrite !bool_decide_eq_false_2; [done| |done].
      rewrite not_elem_of_cons. by split.
Qed.

Lemma filter_all {A} (P : A → Prop) `{∀ x, Decision (P x)} (l : list A) :
  Forall P l → filter P l = l.
Proof.
  induction 1 as [|x l Hx _ IH]; [done|].
  by rewrite filter_cons_True, IH.
Qed.

Lemma keys_delete key (m : SpanMap) :
  NoDup m.*1 → (map_delete key m).*1 = filter (λ k, k ≠ key) m.*1.
Proof.
  induction m as [|[k w] m IH]; [done|].
  rewrite fmap_cons. intros [Hk Hm]%NoDup_cons.
  cbn [map_delete]. destruct (String.eqb_spec k key) as [->|Hne]; simpl.
  - rewrite filter_cons_False by (intros H; by apply H).
    symmetry. apply filter_all. apply Forall_forall.
    intros x Hx ->. done.
  - rewrite filter_cons_True by done. f_equal. by apply IH.
Qed.

(** The entries of a manager made by calls have distinct keys, and each
    span is filed under its own id. *)
Lemma run_inv (calls : list call) :
  NoDup (activeSpans (run calls)).*1 ∧
  Forall (λ kv, span_spanId kv.2 = kv.1) (activeSpans (run calls)) ∧
  (activeSpans (run calls)).*1 = activeIds calls [].
Proof.
  unfold run.
  assert (Hgen : ∀ sm acc,
            NoDup (activeSpans sm).*1 →
            Forall (λ kv, span_spanId kv.2 = kv.1) (activeSpans sm) →
            (activeSpans sm).*1 = acc →
            NoDup (activeSpans (foldl (λ sm c, exec c sm) sm calls)).*1 ∧
            Forall (λ kv, span_spanId kv.2 = kv.1)
              (activeSpans (foldl (λ sm c, exec c sm) sm calls)) ∧
            (activeSpans (foldl (λ sm c, exec c sm) sm calls)).*1
            = activeIds calls acc);
    [|apply Hgen; simpl; [constructor|constructor|done]].
  induction calls as [|c calls IH]; intros sm acc Hnd Hid Hacc; [done|].
  simpl. destruct c as [o gt gs now|id st now]; simpl.
  - apply IH; simpl.
    + rewrite keys_set. case_bool_decide; [done|].
      apply NoDup_app. split; [done|]. split; [|apply NoDup_singleton].
      intros x Hx Hin. apply list_elem_of_singleton in Hin. by subst.
    + clear -Hid. induction (activeSpans sm) as [|[k w] m IHm]; simpl.
      * by constructor.
      * apply Forall_cons in Hid as [Hk Hm].
        destruct (String.eqb k gs) eqn:E.
        -- apply String.eqb_eq in E as ->. by constructor.
        -- constructor; [done|by apply IHm].
    + rewrite keys_set, Hacc. done.
  - unfold finishSpan. destruct (map_get id (activeSpans sm)) as [span|] eqn:Hg; simpl.
    + apply IH; simpl.
      * rewrite keys_delete by done. by apply NoDup_filter.
      * clear -Hid. induction (activeSpans sm) as [|[k w] m IHm]; simpl;
          [by constructor|].
        apply Forall_cons in Hid as [Hk Hm].
        destruct (String.eqb k id); [done|]. constructor; [done|by apply IHm].
      * rewrite keys_delete by done. by rewrite Hacc.
    + apply IH; [done|done|].
      apply map_get_None in Hg. rewrite <- Hacc.
      symmetry. apply filter_all. apply Forall_forall. by intros x Hx ->.
Qed.

(** X13.  Starting a span under an id that is not active and then
    finishing it is a round trip: [getSpan] finds the span in between,
    [finishSpan] returns it with the status given ([ok] by default) and the
    end time stamped, and the manager is back to what it was before. *)
Theorem start_then_finish (sm : t) (options : StartSpanOptions)
    (genTraceId genSpanId : string) (now later : Z)
    (status : option SpanStatus) :
  getSpan genSpanId sm = None →
  let started := startSpan options genTraceId genSpanId now sm in
  span_spanId started.1 = genSpanId ∧
  span_status started.1 = StUnset ∧ span_endTime started.1 = None ∧
  getSpan genSpanId started.2 = Some started.1 ∧
  finishSpan genSpanId status later started.2
  = (Some (finished started.1 status later), sm).
Proof.
  intros Hfresh. simpl. unfold getSpan, finishSpan. simpl.
  rewrite map_get_set_eq. repeat split.
  unfold finished. simpl. f_equal.
  rewrite map_delete_set_fresh by done. by destruct sm.
Qed.

Lemma start_then_finish_witness :
  let started :=
    startSpan (mkStartSpanOptions "GET /" (Some "aaaa") None None)
      "4bf92f3577b34da6a3ce929d0e0e4736" "00f067aa0ba902b7" 1000 new in
  span_spanId started.1 = "00f067aa0ba902b7" ∧
  span_status started.1 = StUnset ∧ span_endTime started.1 = None ∧
  getSpan "00f067aa0ba902b7" started.2 = Some started.1 ∧
  finishSpan "00f067aa0ba902b7" None 1500 started.2
  = (Some (finished started.1 None 1500), new).
Proof.
  apply (start_then_finish new
           (mkStartSpanOptions "GET /" (Some "aaaa") None None)
           "4bf92f3577b34da6a3ce929d0e0e4736" "00f067aa0ba902b7" 1000 1500 None).
  reflexivity.
Defined.

(** X14.  A span is finished once: whatever calls made the manager,
    finishing an id a second time returns [undefined] and changes nothing,
    and so does finishing an id that is not active. *)
Theorem finish_is_once (calls : list call) (spanId : string)
    (status status' : option SpanStatus) (now later : Z) :
  let sm := run calls in
  let once := finishSpan spanId status now sm in
  finishSpan spanId status' later once.2 = (None, once.2) ∧
  (getSpan spanId sm = None → once = (None, sm)).
Proof.
  simpl. destruct (run_inv calls) as (Hnd & _ & _).
  unfold getSpan, finishSpan.
  destruct (map_get spanId (activeSpans (run calls))) as [span|] eqn:Hg; simpl.
  - split; [|done].
    assert (map_get spanId (map_delete spanId (activeSpans (run calls))) = None)
      as ->; [|done].
    apply map_get_None. rewrite keys_delete by done.
    intros [? _]%list_elem_of_filter. done.
  - by rewrite Hg.
Qed.

(** X15.  Starting or finishing a span leaves every span with another id
    as it is. *)
Theorem other_spans_untouched (sm : t) (c : call) (spanId : string) :
  match c with
  | CallStart _ _ genSpanId _ => genSpanId ≠ spanId
  | CallFinish finishedId _ _ => finishedId ≠ spanId
  end →
  getSpan spanId (exec c sm) = getSpan spanId sm.
Proof.
  destruct c as [o gt gs now|id st now]; simpl; intros Hne; unfold getSpan.
  - simpl. by apply map_get_set_ne.
  - unfold finishSpan. destruct (map_get id (activeSpans sm)); simpl; [|done].
    by apply map_get_delete_ne.
Qed.

Lemma other_spans_untouched_witness :
  let sm := (startSpan (mkStartSpanOptions "a" None None None)
               "4bf92f3577b34da6a3ce929d0e0e4736" "00f067aa0ba902b7" 1000 new).2 in
  getSpan "00f067aa0ba902b7" (exec (CallFinish "1111111111111111" None 1200) sm)
  = getSpan "00f067aa0ba902b7" sm.
Proof.
  apply (other_spans_untouched _ (CallFinish "1111111111111111" None 1200)
           "00f067aa0ba902b7").
  discriminate.
Defined.

(** X16.  [getActiveSpans()] lists, in the order of their start, the
    spans started and not yet finished: after any series of calls on a new
    manager their ids are those that the series leaves active, each once,
    and [getSpan] finds each of them. *)
Theorem active_spans_are_the_unfinished (calls : list call) :
  let active := getActiveSpans (run calls) in
  map span_spanId active = activeIds calls [] ∧
  NoDup (map span_spanId active) ∧
  Forall (λ span, getSpan (span_spanId span) (run calls) = Some span) active.
Proof.
  simpl. destruct (run_inv calls) as (Hnd & Hid & Hkeys).
  unfold getActiveSpans, getSpan.
  assert (Hmap : map span_spanId (activeSpans (run calls)).*2
                 = (activeSpans (run calls)).*1).
  { clear -Hid. induction (activeSpans (run calls)) as [|[k w] m IH]; [done|].
    apply Forall_cons in Hid as [Hk Hm]. rewrite !fmap_cons. simpl in *.
    rewrite Hk. f_equal. by apply IH. }
  rewrite Hmap. split; [done|]. split; [done|].
  clear Hkeys Hmap. induction (activeSpans (run calls)) as [|[k w] m IH];
    [by constructor|].
  apply Forall_cons in Hid as [Hk Hm]. rewrite fmap_cons in Hnd.
  apply NoDup_cons in Hnd as [Hnk Hnd]. rewrite fmap_cons.
  cbn [fst snd] in *. subst k. constructor.
  - cbn [map_get]. by rewrite String.eqb_refl.
  - specialize (IH Hnd Hm). eapply Forall_impl; [exact IH|].
    intros span Hspan. cbn [map_get].
    destruct (String.eqb_spec (span_spanId w) (span_spanId span)) as [E|_];
      [|done].
    assert (map_get (span_spanId span) m = None) as Hn
      by (apply map_get_None; by rewrite <- E).
    congruence.
Qed.

(** [tests]: two spans started, the first finished. *)
Example span_manager_run :
  let calls :=
    [CallStart (mkStartSpanOptions "a" None None None) "t1" "s1" 10;
     CallStart (mkStartSpanOptions "b" (Some "aaaa") (Some "bbbb") None) "t2" "s2" 11;
     CallFinish "s1" None 20] in
  map span_name (getActiveSpans (run calls)) = ["b"] ∧
  map span_traceId (getActiveSpans (run calls)) = ["aaaa"] ∧
  getSpan "s1" (run calls) = None.
Proof. by vm_compute. Qed.

End SpanManagerFacts.

(** ** The batching transport *)

Module BatchTransportMore.
Import Js Types BatchTransport.

Section Deferral.
Context {Env : Type} (host : Host Env).
Implicit Types (self : t Env) (e : Env).

Lemma pushLog_loop_breaker logs self :
  circuitBreaker (foldl pushLog self logs) = circuitBreaker self ∧
  batchSize (foldl pushLog self logs) = batchSize self.
Proof.
  revert self. induction logs as [|log logs IH]; intros self; [done|].
  simpl. destruct (IH (pushLog self log)) as [-> ->].
  unfold pushLog. by destruct (_ <=? _).
Qed.

Lemma pushSpan_loop_breaker spans self :
  circuitBreaker (foldl pushSpan self spans) = circuitBreaker self ∧
  batchSize (foldl pushSpan self spans) = batchSize self.
Proof.
  revert self. induction spans as [|span spans IH]; intros self; [done|].
  simpl. destruct (IH (pushSpan self span)) as [-> ->].
  unfold pushSpan. by destruct (_ <=? _).
Qed.

(** What [canAttempt] answers to an open breaker before [resetMs] has
    elapsed. *)
Lemma open_refuses (cb : CircuitBreaker.t) (now tl : Z) :
  CircuitBreaker.state cb = CircuitBreaker.OPEN →
  CircuitBreaker.lastFailureTime cb = Some tl →
  now - tl < CircuitBreaker.resetMs cb →
  CircuitBreaker.canAttempt now cb = (false, cb).
Proof.
  intros Hst Hlast Hlt. unfold CircuitBreaker.canAttempt, CircuitBreaker.elapsed_ok.
  rewrite Hst, Hlast.
  destruct (Z.leb_spec (CircuitBreaker.resetMs cb) (now - tl)); [lia|].
  by rewrite andb_false_r.
Qed.

(** X17.  While the breaker is open and less than [resetMs] has elapsed
    since the last failure, the transport only queues: [flush()] changes
    nothing, and [sendLogs] and [sendSpans] run their loops (appending up
    to [maxBufferSize], dropping the rest) and return; the world outside,
    the inner transport included, is not touched, even when the buffer has
    reached [batchSize]. *)
Theorem open_breaker_only_queues self e (tl : Z)
    (logs : list InternalLogEntry) (spans : list Span) :
  CircuitBreaker.state (circuitBreaker self) = CircuitBreaker.OPEN →
  CircuitBreaker.lastFailureTime (circuitBreaker self) = Some tl →
  clock host e - tl < CircuitBreaker.resetMs (circuitBreaker self) →
  flush host (self, e) = (Ok (), (self, e)) ∧
  sendLogs host logs (self, e) = (Ok (), (foldl pushLog self logs, e)) ∧
  sendSpans host spans (self, e) = (Ok (), (foldl pushSpan self spans, e)).
Proof.
  intros Hst Hlast Hlt.
  assert (Hflush : ∀ self', circuitBreaker self' = circuitBreaker self →
            flush host (self', e) = (Ok (), (self', e))).
  { intros self' Hcb.
    rewrite (BatchTransportFacts.flush_refused host self' e (circuitBreaker self')).
    - by rewrite BatchTransportFacts.set_circuitBreaker_id.
    - rewrite Hcb. by apply (open_refuses _ _ tl). }
  split; [by apply Hflush|]. split.
  - unfold sendLogs. destruct (_ <=? _); [|done].
    apply Hflush. apply pushLog_loop_breaker.
  - unfold sendSpans. destruct (_ <=? _); [|done].
    apply Hflush. apply pushSpan_loop_breaker.
Qed.

(** With rejections that its [catch] block can convert, the retry loop
    ends without throwing, and the debug message after it can be built. *)
Lemma retryLoop_resolves (fn : Env → result unit * Env) remaining attempt
    lastError self e :
  (∀ e error, (fn e).1 = Throw error → convertible (debug self) error = true) →
  debugMessage (debug self) (default (Text "undefined") lastError) = Ok () →
  ∃ exit s',
    retryLoop host fn remaining attempt lastError self e = (Ok exit, s') ∧
    debug s'.1 = debug self ∧
    ∀ last, exit = Exhausted last →
      debugMessage (debug self) (default (Text "undefined") last) = Ok ().
Proof.
  intros Hconv. revert attempt lastError e.
  induction remaining as [|k IH]; intros attempt lastError e Hlast.
  - eexists _, _. split; [done|]. split; [done|]. by intros last [= <-].
  - cbn [retryLoop]. pose proof (Hconv e) as Hfn.
    destruct (fn e) as [[[]|error] e1]; cbn [fst] in Hfn.
    + eexists _, _. split; [done|]. split; [done|]. by intros last.
    + destruct (BatchTransportFacts.convertible_caught _ _ (Hfn error eq_refl))
        as (message & -> & Hmsg).
      rewrite Hmsg. destruct (attempt <? maxRetries self); by apply IH.
Qed.

Lemma sendWithRetry_resolves (fn : Env → result unit * Env) self e :
  (∀ e error, (fn e).1 = Throw error → convertible (debug self) error = true) →
  (sendWithRetry host fn (self, e)).1 = Ok ().
Proof.
  intros Hconv. unfold sendWithRetry.
  destruct (retryLoop_resolves fn (Z.to_nat (maxRetries self + 1)) 0 None self e
              Hconv) as (exit & [self' e'] & -> & Hdebug & Hlast);
    [by destruct (debug self)|].
  destruct exit as [|last]; [done|].
  simpl in Hdebug. rewrite Hdebug, (Hlast last eq_refl). done.
Qed.

(** X18.  The transport swallows every rejection that its [catch] block
    can convert.  If the values that the inner transport rejects with are
    [Error] instances or values that [String()] converts (in debug mode,
    with a [message] that converts as well), then, in whatever state the
    transport is, the promises of [flush], [sendLogs] and [sendSpans]
    resolve. *)
Theorem convertible_rejections_are_swallowed (s : t Env * Env)
    (logs : list InternalLogEntry) (spans : list Span) :
  (∀ batch e error,
     (t_sendLogs (inner s.1) batch e).1 = Throw error →
     convertible (debug s.1) error = true) →
  (∀ f batch e error,
     t_sendSpans (inner s.1) = Some f → (f batch e).1 = Throw error →
     convertible (debug s.1) error = true) →
  (flush host s).1 = Ok () ∧
  (sendLogs host logs s).1 = Ok () ∧
  (sendSpans host spans s).1 = Ok ().
Proof.
  destruct s as [self0 e0]. cbn [fst]. intros Hlogs Hspans.
  assert (Hflush : ∀ self e,
            inner self = inner self0 → debug self = debug self0 →
            (flush host (self, e)).1 = Ok ()).
  { intros self e Hinner Hdebug.
    destruct (CircuitBreaker.canAttempt (clock host e) (circuitBreaker self))
      as [[] cb] eqn:Hcan.
    - rewrite (BatchTransportFacts.flush_passed host self e cb Hcan).
      unfold bind, ret. cbv zeta.
      set (self1 := set_spanBuffer [] (set_logBuffer [] (set_circuitBreaker cb self))).
      assert (Hfirst : ∃ cb1 e1,
                (if 0 <? Z.of_nat (length (logBuffer self))
                 then sendWithRetry host (t_sendLogs (inner self) (logBuffer self))
                 else λ s, (Ok (), s)) (self1, e)
                = (Ok (), (set_circuitBreaker cb1 self1, e1))).
      { destruct (0 <? Z.of_nat (length (logBuffer self))).
        - pose proof (sendWithRetry_resolves
                        (t_sendLogs (inner self) (logBuffer self)) self1 e) as Hok.
          destruct (BatchTransportFacts.sendWithRetry_frame host
                      (t_sendLogs (inner self) (logBuffer self)) self1 e)
            as [cb1 Hcb1].
          destruct (sendWithRetry host _ (self1, e)) as [r [x e1]].
          cbn [fst snd] in *. subst x. rewrite Hok; [by exists cb1, e1|].
          intros e' error. rewrite Hinner.
          change (debug self1) with (debug self). rewrite Hdebug. apply Hlogs.
        - exists cb, e. by destruct self. }
      destruct Hfirst as (cb1 & e1 & ->).
      destruct (t_sendSpans (inner self)) as [f|] eqn:Hf; [|done].
      destruct (0 <? Z.of_nat (length (spanBuffer self))); [|done].
      apply sendWithRetry_resolves. intros e' error.
      change (debug (set_circuitBreaker cb1 self1)) with (debug self).
      rewrite Hdebug. apply Hspans. by rewrite <- Hinner.
    - by rewrite (BatchTransportFacts.flush_refused host self e cb Hcan). }
  split; [by apply Hflush|]. split.
  - unfold sendLogs. rewrite BatchTransportFacts.pushLog_take.
    destruct (_ <=? _); [by apply Hflush|done].
  - unfold sendSpans. rewrite BatchTransportFacts.pushSpan_take.
    destruct (_ <=? _); [by apply Hflush|done].
Qed.

(** X19.  A flush either keeps or loses all: when the breaker refuses it
    both buffers stay as they are, and when the breaker lets it pass both
    buffers are empty afterwards, whether the sends succeed or fail. *)
Theorem flush_keeps_or_empties self e :
  let after := (flush host (self, e)).2.1 in
  if (CircuitBreaker.canAttempt (clock host e) (circuitBreaker self)).1
  then logBuffer after = [] ∧ spanBuffer after = []
  else logBuffer after = logBuffer self ∧ spanBuffer after = spanBuffer self.
Proof.
  destruct (CircuitBreaker.canAttempt (clock host e) (circuitBreaker self))
    as [[] cb] eqn:Hcan; cbv zeta; cbn [fst].
  - by destruct (BatchTransportFacts.flush_passed_frame host self e cb Hcan)
      as [cb' ->].
  - by rewrite (BatchTransportFacts.flush_refused host self e cb Hcan).
Qed.

(** A send that succeeds at once is made once and closes the breaker. *)
Lemma sendWithRetry_first_ok (fn : Env → result unit * Env) self e e1 :
  0 ≤ maxRetries self → fn e = (Ok (), e1) →
  sendWithRetry host fn (self, e)
  = (Ok (),
     (set_circuitBreaker
        (CircuitBreaker.recordSuccess (circuitBreaker self)) self, e1)).
Proof.
  intros Hm Hfn. unfold sendWithRetry.
  destruct (Z.to_nat (maxRetries self + 1)) as [|n] eqn:Hn; [lia|].
  simpl. by rewrite Hfn.
Qed.

(** X20.  Recovery.  A transport whose breaker is open, with logs queued
    and no spans: at the first [flush()] made once [resetMs] has elapsed
    since the last failure (stamped at a nonzero clock reading), if the
    inner transport then accepts the batch, it is sent all the queued logs
    in one call, the log buffer is empty and the breaker is CLOSED with its
    failure counter at [0]. *)
Theorem flush_recovers_after_reset self e e1 (tl : Z) :
  CircuitBreaker.state (circuitBreaker self) = CircuitBreaker.OPEN →
  CircuitBreaker.lastFailureTime (circuitBreaker self) = Some tl →
  tl ≠ 0 →
  CircuitBreaker.resetMs (circuitBreaker self) ≤ clock host e - tl →
  0 ≤ maxRetries self →
  logBuffer self ≠ [] → spanBuffer self = [] →
  t_sendLogs (inner self) (logBuffer self) e = (Ok (), e1) →
  ∃ cb,
    flush host (self, e)
    = (Ok (), (set_logBuffer [] (set_circuitBreaker cb self), e1)) ∧
    CircuitBreaker.state cb = CircuitBreaker.CLOSED ∧
    CircuitBreaker.failureCount cb = 0.
Proof.
  intros Hst Hlast Hnz Hge Hm Hlogs Hspans Hsend.
  set (half := (CircuitBreaker.canAttempt (clock host e) (circuitBreaker self)).2).
  assert (Hcan : CircuitBreaker.canAttempt (clock host e) (circuitBreaker self)
                 = (true, half)).
  { subst half. unfold CircuitBreaker.canAttempt, CircuitBreaker.elapsed_ok.
    rewrite Hst, Hlast. simpl.
    destruct (Z.eqb_spec tl 0); [done|].
    destruct (Z.leb_spec (CircuitBreaker.resetMs (circuitBreaker self))
                (clock host e - tl)); [done|lia]. }
  exists (CircuitBreaker.recordSuccess half).
  rewrite (BatchTransportFacts.flush_passed host self e half Hcan).
  unfold bind, ret. cbv zeta. rewrite Hspans.
  destruct (logBuffer self) as [|l ls] eqn:Hl; [done|].
  change (0 <? Z.of_nat (length (l :: ls))) with true. cbv iota.
  rewrite (sendWithRetry_first_ok _ _ e e1) by done.
  split; [|done].
  destruct (t_sendSpans (inner self)); destruct self; simpl in *; by subst.
Qed.

End Deferral.

(** A transport stuck open with two logs queued, over the mock. *)
Lemma open_breaker_only_queues_witness :
  let self :=
    set_circuitBreaker
      (CircuitBreaker.recordFailures [1000; 1001; 1002] (CircuitBreaker.new 3 1000))
      (set_logBuffer [makeLog "a"; makeLog "b"] (new retryOptions)) in
  let e := mkMock 1500 [] [] false 0 in
  flush mockHost (self, e) = (Ok (), (self, e)) ∧
  sendLogs mockHost [makeLog "c"] (self, e)
  = (Ok (), (foldl pushLog self [makeLog "c"], e)) ∧
  sendSpans mockHost [makeSpan "s"] (self, e)
  = (Ok (), (foldl pushSpan self [makeSpan "s"], e)).
Proof.
  intros self e.
  apply (open_breaker_only_queues mockHost self e 1002
           [makeLog "c"] [makeSpan "s"]).
  - reflexivity.
  - reflexivity.
  - simpl. lia.
Defined.

Lemma flush_recovers_after_reset_witness :
  let self :=
    set_circuitBreaker
      (CircuitBreaker.recordFailures [1000; 1001; 1002] (CircuitBreaker.new 3 1000))
      (set_logBuffer [makeLog "a"; makeLog "b"] (new retryOptions)) in
  let e := mkMock 2002 [] [] false 0 in
  ∃ cb,
    flush mockHost (self, e)
    = (Ok (), (set_logBuffer [] (set_circuitBreaker cb self),
               mkMock 2002 [[makeLog "a"; makeLog "b"]] [] false 1)) ∧
    CircuitBreaker.state cb = CircuitBreaker.CLOSED ∧
    CircuitBreaker.failureCount cb = 0.
Proof.
  intros self e.
  apply (flush_recovers_after_reset mockHost self e
           (mkMock 2002 [[makeLog "a"; makeLog "b"]] [] false 1) 1002).
  - reflexivity.
  - reflexivity.
  - lia.
  - simpl. lia.
  - simpl. lia.
  - discriminate.
  - reflexivity.
  - reflexivity.
Defined.

(** The mock transport of the test-suite, failing: it rejects with
    [new Error('send failed')], which the transport swallows. *)
Lemma convertible_rejections_are_swallowed_witness :
  let s := (new retryOptions, mockWorld true) in
  (flush mockHost s).1 = Ok () ∧
  (sendLogs mockHost [makeLog "a"; makeLog "b"] s).1 = Ok () ∧
  (sendSpans mockHost [makeSpan "s"; makeSpan "t"] s).1 = Ok ().
Proof.
  intros s.
  apply (convertible_rejections_are_swallowed mockHost s).
  - intros batch m error. simpl. unfold mock_sendLogs.
    destruct (shouldFail m); simpl; [by intros [= <-]|done].
  - intros f batch m error [= <-]. unfold mock_sendSpans.
    destruct (shouldFail m); simpl; [by intros [= <-]|done].
Defined.

(** A rejection that [String()] cannot convert goes through [flush] to the
    caller, after one call, with the batch gone from the buffer. *)
Example unconvertible_rejection_propagates :
  let bare := mkTransport _ (fun _ => rejectsWithBareObject) None
                rejectsWithBareObject in
  let self := set_logBuffer [makeLog "a"]
                (new (mkOptions _ bare None None None None None None None None)) in
  flush mockHost (self, mockWorld false)
  = (Throw (new_Error "Cannot convert object to primitive value"),
     (set_logBuffer [] self, mockWorld false)).
Proof. by vm_compute. Qed.

Section Backoff.
Context {Env : Type} (host : Host Env).
Variable fn : Env → result unit * Env.
Variable debugging : bool.
Hypothesis fn_fails :
  ∀ e, ∃ error, (fn e).1 = Throw error ∧ convertible debugging error = true.

Lemma retryLoop_sleeps (remaining : nat) (attempt : Z) lastError
    (self : t (Env * list Z)) (e : Env) (slept : list Z) :
  debug self = debugging →
  attempt + Z.of_nat remaining = maxRetries self + 1 →
  (retryLoop (sleepLogHost host) (carried fn) remaining attempt lastError
     self (e, slept)).2.2.2
  = slept ++ map (λ i, retryDelayMs self * 2 ^ (attempt + Z.of_nat i))
                 (seq 0 (remaining - 1)).
Proof.
  intros Hdebug. revert attempt lastError e slept.
  induction remaining as [|k IH]; intros attempt lastError e slept Hrel.
  - simpl. by rewrite app_nil_r.
  - cbn [retryLoop carried]. destruct (fn_fails e) as (error & Hf & Hconv).
    destruct (fn e) as [r e1]. cbn [fst] in Hf. subst r.
    destruct (BatchTransportFacts.convertible_caught _ _ Hconv)
      as (message & -> & Hmsg).
    rewrite Hdebug, Hmsg. simpl (S k - 1)%nat. rewrite Nat.sub_0_r.
    destruct (Z.ltb_spec attempt (maxRetries self)) as [Hlt|Hge].
    + cbn [sleep sleepLogHost]. rewrite IH by lia.
      rewrite <- app_assoc. f_equal.
      destruct k as [|k]; [lia|]. simpl. rewrite Nat.sub_0_r, Z.add_0_r.
      f_equal. rewrite <- fmap_S_seq, <- list_fmap_compose.
      apply list_fmap_ext. intros _ i _. simpl. do 2 f_equal. lia.
    + rewrite IH by lia. assert (k = 0%nat) as -> by lia.
      simpl. by rewrite !app_nil_r.
Qed.

End Backoff.

(** X21.  Back-off.  When every attempt fails with an [Error] or with a
    value that [String()] converts (in debug mode, with a [message] that
    converts as well), and [maxRetries >= 0], [sendWithRetry] waits
    between the attempts and not after the last one: the delays slept
    are, in order, [retryDelayMs * 2^attempt] for
    [attempt = 0 .. maxRetries - 1]. *)
Theorem backoff_doubles {Env : Type} (host : Host Env)
    (fn : Env → result unit * Env) (self : t (Env * list Z)) (e : Env) :
  0 ≤ maxRetries self →
  (∀ e, ∃ error,
     (fn e).1 = Throw error ∧ convertible (debug self) error = true) →
  (sendWithRetry (sleepLogHost host) (carried fn) (self, (e, []))).2.2.2
  = backoffDelays (retryDelayMs self) (Z.to_nat (maxRetries self)).
Proof.
  intros Hm Hfail.
  pose proof (retryLoop_sleeps host fn (debug self) Hfail
                (Z.to_nat (maxRetries self + 1)) 0 None self e [] eq_refl)
    as Hsleeps.
  unfold sendWithRetry.
  destruct (retryLoop _ _ _ _ _ _ _) as [[[|last]|err] [self' w]];
    cbn [fst snd] in *;
    try destruct (debugMessage _ _); cbn [fst snd];
    rewrite Hsleeps by lia; unfold backoffDelays;
    replace (Z.to_nat (maxRetries self + 1) - 1)%nat
      with (Z.to_nat (maxRetries self)) by lia;
    done.
Qed.

Lemma backoff_doubles_witness :
  (sendWithRetry (sleepLogHost mockHost) (carried alwaysFails)
     (new (mkOptions _ (mkTransport _ (fun _ => carried alwaysFails) None
                          (carried alwaysFails))
             None None None None None None None None),
      (mockWorld true, []))).2.2.2
  = backoffDelays 1000 (Z.to_nat 3).
Proof.
  apply (backoff_doubles mockHost alwaysFails
           (new (mkOptions _ (mkTransport _ (fun _ => carried alwaysFails) None
                                (carried alwaysFails))
                   None None None None None None None None))
           (mockWorld true)).
  - simpl. lia.
  - intros m. by eexists.
Defined.

(** With the defaults: one, two and four seconds. *)
Example default_backoff : backoffDelays 1000 3 = [1000; 2000; 4000].
Proof. reflexivity. Qed.


Section Delivery.
Context {Env : Type} (host : Host Env) (inner0 : Transport Env).
Hypothesis logs_accepted : ∀ batch e, (t_sendLogs inner0 batch e).1 = Ok ().
Hypothesis spans_accepted :
  ∀ f, t_sendSpans inner0 = Some f → ∀ batch e, (f batch e).1 = Ok ().
Implicit Types (self : t (Env * list call)) (e : Env) (cs : list call).

Lemma sentLogEntries_snoc_logs cs batch :
  sentLogEntries (cs ++ [CallSendLogs batch]) = sentLogEntries cs ++ batch.
Proof.
  unfold sentLogEntries. rewrite omap_app, concat_app. simpl.
  by rewrite app_nil_r.
Qed.

Lemma sentLogEntries_snoc_spans cs batch :
  sentLogEntries (cs ++ [CallSendSpans batch]) = sentLogEntries cs.
Proof.
  unfold sentLogEntries. rewrite omap_app, concat_app. simpl.
  by rewrite app_nil_r.
Qed.

Lemma sentSpanEntries_snoc_spans cs batch :
  sentSpanEntries (cs ++ [CallSendSpans batch]) = sentSpanEntries cs ++ batch.
Proof.
  unfold sentSpanEntries. rewrite omap_app, concat_app. simpl.
  by rewrite app_nil_r.
Qed.

Lemma sentSpanEntries_snoc_logs cs batch :
  sentSpanEntries (cs ++ [CallSendLogs batch]) = sentSpanEntries cs.
Proof.
  unfold sentSpanEntries. rewrite omap_app, concat_app. simpl.
  by rewrite app_nil_r.
Qed.

(** A flush of a closed transport over an inner transport that accepts
    everything: each buffer that is not empty goes out in one call, and
    the breaker stays closed. *)
Lemma flush_delivers self e cs :
  inner self = spied inner0 →
  0 ≤ maxRetries self →
  CircuitBreaker.state (circuitBreaker self) = CircuitBreaker.CLOSED →
  ∃ cb e' cs',
    flush (spiedHost host) (self, (e, cs))
    = (Ok (),
       (set_spanBuffer [] (set_logBuffer [] (set_circuitBreaker cb self)),
        (e', cs'))) ∧
    CircuitBreaker.state cb = CircuitBreaker.CLOSED ∧
    sentLogEntries cs' = sentLogEntries cs ++ logBuffer self ∧
    (is_Some (t_sendSpans inner0) →
     sentSpanEntries cs' = sentSpanEntries cs ++ spanBuffer self).
Proof.
  intros Hinner Hm Hst.
  assert (Hcan : CircuitBreaker.canAttempt (clock (spiedHost host) (e, cs))
                   (circuitBreaker self) = (true, circuitBreaker self)).
  { unfold CircuitBreaker.canAttempt. by rewrite Hst. }
  rewrite (BatchTransportFacts.flush_passed _ self (e, cs) _ Hcan).
  rewrite BatchTransportFacts.set_circuitBreaker_id. unfold bind, ret. cbv zeta.
  set (self0 := set_spanBuffer [] (set_logBuffer [] self)).
  assert (Hlogs : ∃ cb1 e1 cs1,
            (if 0 <? Z.of_nat (length (logBuffer self))
             then sendWithRetry (spiedHost host)
                    (t_sendLogs (inner self) (logBuffer self))
             else λ s, (Ok (), s)) (self0, (e, cs))
            = (Ok (), (set_circuitBreaker cb1 self0, (e1, cs1))) ∧
            CircuitBreaker.state cb1 = CircuitBreaker.CLOSED ∧
            sentLogEntries cs1 = sentLogEntries cs ++ logBuffer self ∧
            sentSpanEntries cs1 = sentSpanEntries cs).
  { destruct (logBuffer self) as [|l ls] eqn:Hl.
    - exists (circuitBreaker self), e, cs. simpl.
      rewrite app_nil_r. repeat split; try done;
        try (subst self0; by destruct self).
    - change (0 <? Z.of_nat (length (l :: ls))) with true. cbv iota.
      rewrite Hinner. simpl.
      pose proof (logs_accepted (l :: ls) e) as Hok.
      destruct (t_sendLogs inner0 (l :: ls) e) as [r e1] eqn:Hcall.
      simpl in Hok. subst r.
      exists (CircuitBreaker.recordSuccess (circuitBreaker self)), e1,
             (cs ++ [CallSendLogs (l :: ls)]).
      split.
      + destruct (Z.to_nat (maxRetries self + 1)) as [|n] eqn:Hn; [lia|].
        simpl. by rewrite Hcall.
      + split; [done|]. by rewrite sentLogEntries_snoc_logs, sentSpanEntries_snoc_logs. }
  destruct Hlogs as (cb1 & e1 & cs1 & -> & Hcb1 & Hsent & Hspans).
  rewrite Hinner. simpl.
  destruct (t_sendSpans inner0) as [f|] eqn:Hf.
  - destruct (spanBuffer self) as [|sp sps] eqn:Hs.
    + exists cb1, e1, cs1. simpl. rewrite app_nil_r.
      repeat split; try done; try (subst self0; by destruct self).
    + change (0 <? Z.of_nat (length (sp :: sps))) with true. cbv iota.
      pose proof (spans_accepted f eq_refl (sp :: sps) e1) as Hok.
      destruct (f (sp :: sps) e1) as [r e2] eqn:Hcall. simpl in Hok. subst r.
      exists (CircuitBreaker.recordSuccess cb1), e2,
             (cs1 ++ [CallSendSpans (sp :: sps)]).
      split.
      * unfold sendWithRetry. cbn [maxRetries set_circuitBreaker].
        destruct (Z.to_nat (maxRetries self0 + 1)) as [|n] eqn:Hn;
          [subst self0; simpl in Hn; lia|].
        simpl. by rewrite Hcall.
      * split; [done|].
        rewrite sentLogEntries_snoc_spans, sentSpanEntries_snoc_spans.
        split; [exact Hsent|]. intros _. by rewrite Hspans.
  - exists cb1, e1, cs1. repeat split; try done;
      try (subst self0; by destruct self); by intros [? ?].
Qed.

Lemma handedLogs_cons o ops :
  handedLogs (o :: ops) = handedLogs [o] ++ handedLogs ops.
Proof. unfold handedLogs. destruct o; simpl; by rewrite ?app_nil_r. Qed.

Lemma handedSpans_cons o ops :
  handedSpans (o :: ops) = handedSpans [o] ++ handedSpans ops.
Proof. unfold handedSpans. destruct o; simpl; by rewrite ?app_nil_r. Qed.

(** One call on a closed transport with room in its buffers: what was
    handed over is sent or queued, in order, and the transport stays
    closed. *)
Lemma runOp_delivers o self e cs :
  inner self = spied inner0 →
  0 ≤ maxRetries self →
  CircuitBreaker.state (circuitBreaker self) = CircuitBreaker.CLOSED →
  Z.of_nat (length (logBuffer self) + length (handedLogs [o])) ≤ maxBufferSize self →
  Z.of_nat (length (spanBuffer self) + length (handedSpans [o])) ≤ maxBufferSize self →
  ∃ self1 e1 cs1,
    runOp (spiedHost host) o (self, (e, cs)) = (self1, (e1, cs1)) ∧
    inner self1 = spied inner0 ∧
    maxRetries self1 = maxRetries self ∧
    maxBufferSize self1 = maxBufferSize self ∧
    CircuitBreaker.state (circuitBreaker self1) = CircuitBreaker.CLOSED ∧
    (length (logBuffer self1) ≤ length (logBuffer self) + length (handedLogs [o]))%nat ∧
    (length (spanBuffer self1) ≤ length (spanBuffer self) + length (handedSpans [o]))%nat ∧
    sentLogEntries cs1 ++ logBuffer self1
    = sentLogEntries cs ++ logBuffer self ++ handedLogs [o] ∧
    (is_Some (t_sendSpans inner0) →
     sentSpanEntries cs1 ++ spanBuffer self1
     = sentSpanEntries cs ++ spanBuffer self ++ handedSpans [o]).
Proof.
  intros Hinner Hm Hst Hcapl Hcaps.
  assert (Hflush : ∀ self',
            inner self' = spied inner0 → maxRetries self' = maxRetries self →
            maxBufferSize self' = maxBufferSize self →
            circuitBreaker self' = circuitBreaker self →
            ∃ self1 e1 cs1,
              (flush (spiedHost host) (self', (e, cs))).2 = (self1, (e1, cs1)) ∧
              inner self1 = spied inner0 ∧
              maxRetries self1 = maxRetries self ∧
              maxBufferSize self1 = maxBufferSize self ∧
              CircuitBreaker.state (circuitBreaker self1) = CircuitBreaker.CLOSED ∧
              logBuffer self1 = [] ∧ spanBuffer self1 = [] ∧
              sentLogEntries cs1 = sentLogEntries cs ++ logBuffer self' ∧
              (is_Some (t_sendSpans inner0) →
               sentSpanEntries cs1 = sentSpanEntries cs ++ spanBuffer self')).
  { intros self' Hi' Hm' Hb' Hcb'.
    destruct (flush_delivers self' e cs) as (cb & e1 & cs1 & -> & Hcb & Hl & Hs);
      [done|by rewrite Hm'|by rewrite Hcb'|].
    eexists _, e1, cs1. split; [done|]. by repeat split. }
  destruct o as [logs|spans|].
  - cbn [runOp]. unfold sendLogs.
    assert (Hlogs : handedLogs [OpSendLogs logs] = logs)
      by (unfold handedLogs; simpl; by rewrite app_nil_r).
    rewrite Hlogs in *. change (handedSpans [OpSendLogs logs]) with (@nil Span) in *.
    rewrite (BatchTransportFacts.pushLog_loop logs self) by lia.
    rewrite take_ge by lia.
    set (self' := set_logBuffer (logBuffer self ++ logs) self).
    destruct (batchSize self' <=? Z.of_nat (length (logBuffer self'))).
    + destruct (Hflush self') as
        (self1 & e1 & cs1 & -> & H1 & H2 & H3 & H4 & H5 & H6 & H7 & H8); [done..|].
      exists self1, e1, cs1. rewrite H5, H6, !app_nil_r.
      repeat split; try done; simpl; try lia.
    + exists self', e, cs. subst self'. simpl. rewrite length_app, !app_nil_r.
      repeat split; try done; lia.
  - cbn [runOp]. unfold sendSpans.
    assert (Hspans : handedSpans [OpSendSpans spans] = spans)
      by (unfold handedSpans; simpl; by rewrite app_nil_r).
    rewrite Hspans in *. change (handedLogs [OpSendSpans spans]) with (@nil InternalLogEntry) in *.
    rewrite (BatchTransportFacts.pushSpan_loop spans self) by lia.
    rewrite take_ge by lia.
    set (self' := set_spanBuffer (spanBuffer self ++ spans) self).
    destruct (batchSize self' <=? Z.of_nat (length (spanBuffer self'))).
    + destruct (Hflush self') as
        (self1 & e1 & cs1 & -> & H1 & H2 & H3 & H4 & H5 & H6 & H7 & H8); [done..|].
      exists self1, e1, cs1. rewrite H5, H6, !app_nil_r.
      repeat split; try done; simpl; try lia.
    + exists self', e, cs. subst self'. simpl. rewrite length_app, !app_nil_r.
      repeat split; try done; lia.
  - cbn [runOp].
    destruct (Hflush self) as
      (self1 & e1 & cs1 & -> & H1 & H2 & H3 & H4 & H5 & H6 & H7 & H8); [done..|].
    exists self1, e1, cs1. rewrite H5, H6, !app_nil_r.
    repeat split; try done; simpl; try lia.
Qed.

Lemma runOps_delivers ops self e cs :
  inner self = spied inner0 →
  0 ≤ maxRetries self →
  CircuitBreaker.state (circuitBreaker self) = CircuitBreaker.CLOSED →
  Z.of_nat (length (logBuffer self) + length (handedLogs ops)) ≤ maxBufferSize self →
  Z.of_nat (length (spanBuffer self) + length (handedSpans ops)) ≤ maxBufferSize self →
  let s' := runOps (spiedHost host) ops (self, (e, cs)) in
  sentLogEntries s'.2.2 ++ logBuffer s'.1
  = sentLogEntries cs ++ logBuffer self ++ handedLogs ops ∧
  (is_Some (t_sendSpans inner0) →
   sentSpanEntries s'.2.2 ++ spanBuffer s'.1
   = sentSpanEntries cs ++ spanBuffer self ++ handedSpans ops).
Proof.
  revert self e cs. induction ops as [|o ops IH]; intros self e cs Hi Hm Hst Hl Hs.
  - simpl. split; [by rewrite app_nil_r|]. intros _. by rewrite app_nil_r.
  - rewrite handedLogs_cons, handedSpans_cons in *. rewrite !length_app in *.
    destruct (runOp_delivers o self e cs) as
      (self1 & e1 & cs1 & Hrun & H1 & H2 & H3 & H4 & H5 & H6 & H7 & H8);
      [done|done|done|lia|lia|].
    unfold runOps. cbn [foldl]. rewrite Hrun. fold (runOps (spiedHost host) ops (self1, (e1, cs1))).
    destruct (IH self1 e1 cs1) as [IHl IHs];
      [done|by rewrite H2|done|rewrite H3; lia|rewrite H3; lia|].
    cbv zeta. split.
    + rewrite IHl, !app_assoc. f_equal. by rewrite <- !app_assoc.
    + intros Hsome. rewrite (IHs Hsome), !app_assoc. f_equal.
      rewrite <- !app_assoc. by apply H8.
Qed.


End Delivery.


(** X22.  Nothing is lost, repeated or reordered while all goes well.
    Over an inner transport that accepts every batch, with
    [maxRetries >= 0], take any series of awaited [sendLogs], [sendSpans]
    and [flush] calls on a new transport that hands over no more than
    [maxBufferSize] logs and no more than [maxBufferSize] spans.  Then the
    log entries of the batches sent so far, followed by those still
    queued, are exactly the entries handed over, in their order; and the
    same holds for the spans when the inner transport has [sendSpans]. *)
Theorem accepted_batches_deliver_everything {Env : Type} (host : Host Env)
    (options : BatchTransportOptions Env) (e0 : Env) (ops : list op) :
  (∀ batch e, (t_sendLogs (o_inner options) batch e).1 = Ok ()) →
  (∀ f, t_sendSpans (o_inner options) = Some f →
        ∀ batch e, (f batch e).1 = Ok ()) →
  0 ≤ default 3 (o_maxRetries options) →
  Z.of_nat (length (handedLogs ops)) ≤ default 10000 (o_maxBufferSize options) →
  Z.of_nat (length (handedSpans ops)) ≤ default 10000 (o_maxBufferSize options) →
  let s := runOps (spiedHost host) ops
             (new (spiedOptions options), (e0, [])) in
  sentLogEntries s.2.2 ++ logBuffer s.1 = handedLogs ops ∧
  (is_Some (t_sendSpans (o_inner options)) →
   sentSpanEntries s.2.2 ++ spanBuffer s.1 = handedSpans ops).
Proof.
  intros Hlogs Hspans Hm Hcl Hcs.
  apply (runOps_delivers host (o_inner options) Hlogs Hspans ops
           (new (spiedOptions options)) e0 []); simpl; try done; lia.
Qed.

Lemma accepted_batches_deliver_everything_witness :
  let ops := [OpSendLogs [makeLog "a"]; OpSendSpans [makeSpan "s"];
              OpSendLogs [makeLog "b"; makeLog "c"]; OpFlush;
              OpSendLogs [makeLog "d"]] in
  let s := runOps (spiedHost stillHost) ops
             (new (spiedOptions acceptingOptions), ((), [])) in
  sentLogEntries s.2.2 ++ logBuffer s.1 = handedLogs ops ∧
  (is_Some (t_sendSpans (o_inner acceptingOptions)) →
   sentSpanEntries s.2.2 ++ spanBuffer s.1 = handedSpans ops).
Proof.
  intros ops.
  apply (accepted_batches_deliver_everything stillHost acceptingOptions () ops).
  - reflexivity.
  - intros f [= <-]. reflexivity.
  - simpl. lia.
  - simpl. lia.
  - simpl. lia.
Defined.

End BatchTransportMore.


(** ** The hub: [init], [flush] and [close] *)

Module HubMore.
Import Js Types Hub.

(** X23. [init] builds a client only when the hub has none: the first call
    stores the client it returns, and any later call, whatever its options,
    returns that same client and leaves the hub as it is. *)
Theorem init_first_wins {Client Options : Type} (api : ClientApi Client Options)
    (o1 o2 : Options) (hub : t Client) :
  let first := init api o1 hub in
  getClient first.2 = Some first.1 ∧
  getScope first.2 = getScope hub ∧
  init api o2 first.2 = first.
Proof.
  unfold init, getClient, getScope.
  destruct (client hub) as [c|] eqn:Hc; simpl.
  - by rewrite Hc.
  - done.
Qed.

(** X24. [close] drops the client exactly when the client's own [close]
    does not reject; the global scope stays, and after a close that
    resolved, [init] builds a new client from the options it is given. *)
Theorem close_releases_client {Client Options : Type}
    (api : ClientApi Client Options) (life : ClientLifecycle Client)
    (o : Options) (hub : t Client) :
  let closed := close life hub in
  (closed.1 = Ok () ↔ getClient closed.2 = None) ∧
  getScope closed.2 = getScope hub ∧
  (closed.1 = Ok () →
   (init api o closed.2).1 = client_new api o ∧
   getClient (init api o closed.2).2 = Some (client_new api o)).
Proof.
  unfold close, getClient, getScope.
  destruct (client hub) as [c|]; simpl.
  - destruct (client_close life c) as [[[]|err] c']; simpl.
    + done.
    + repeat split; try done.
  - done.
Qed.

(** [flush] keeps the hub's client slot and scope: a hub without a
    client resolves without a call, and a hub with one still has one
    afterwards, whether the client's [flush] resolved or rejected. *)
Lemma flush_keeps_client {Client : Type} (life : ClientLifecycle Client)
    (hub : t Client) :
  let flushed := flush life hub in
  (is_Some (getClient flushed.2) ↔ is_Some (getClient hub)) ∧
  getScope flushed.2 = getScope hub ∧
  (getClient hub = None → flushed = (Ok (), hub)).
Proof.
  unfold flush, getClient, getScope.
  destruct (client hub) as [c|] eqn:Hc; simpl.
  - destruct (client_flush life c) as [r c']; simpl.
    repeat split; try done; by eauto.
  - rewrite Hc. repeat split; try done.
Qed.

(** The hub of the tests: initialised, closed, initialised again. *)
Example reinit_after_close :
  let h1 := (init namedApi "first" (new "t")).2 in
  let h2 := (close namedLifecycle h1).2 in
  (init namedApi "second" h1).1 = "first" ∧
  (init namedApi "second" h2).1 = "second" ∧
  getClient (close namedLifecycle (init namedApi "stuck" (new "t")).2).2
    = Some "stuck".
Proof. done. Qed.

End HubMore.

(** ** The error serializer: stack frames, causes, metadata *)

Module ErrorSerializerMore.
Import Js TraceContext ErrorSerializer.

(** [.+] takes a whole non-empty text in which [.] matches everything. *)
Lemma greedy_dot_all {R : Type} (k : string → string → option R) (s acc : string) :
  s ≠ EmptyString → all_dot s = true → (∀ g, k g EmptyString ≠ None) →
  plus_greedy re_dot acc s k ≠ None.
Proof.
  intros Hne Hdot Hk. revert acc Hne Hdot.
  induction s as [|c s IH]; intros acc Hne Hdot; [done|].
  simpl in Hdot. apply andb_prop in Hdot as [Hc Hs].
  cbn [plus_greedy]. rewrite Hc.
  destruct s as [|c' s'].
  - cbn [plus_greedy]. apply Hk.
  - specialize (IH (acc +:+ String c EmptyString) ltac:(done) Hs).
    by destruct (plus_greedy re_dot _ (String c' s') k).
Qed.

Lemma trimEnd_idem (s : string) : trimEnd (trimEnd s) = trimEnd s.
Proof.
  induction s as [|c s IH]; [done|].
  cbn [trimEnd]. destruct (trimEnd s) as [|c' r'] eqn:Hr.
  - destruct (is_whitespace c) eqn:Hc; [done|].
    cbn [trimEnd]. by rewrite Hc.
  - cbn [trimEnd]. cbn [trimEnd] in IH.
    destruct (trimEnd r') as [|c'' r''] eqn:Hr'.
    + destruct (is_whitespace c'); [done|]. by rewrite IH.
    + by rewrite IH.
Qed.

Lemma all_dot_app (s1 s2 : string) :
  all_dot (s1 +:+ s2) = all_dot s1 && all_dot s2.
Proof.
  induction s1 as [|c s1 IH]; [done|].
  change (String c s1 +:+ s2) with (String c (s1 +:+ s2)).
  cbn [all_dot]. by rewrite IH, andb_assoc.
Qed.

Lemma all_dot_trimStart (s : string) :
  all_dot s = true → all_dot (trimStart s) = true.
Proof.
  induction s as [|c s IH]; [done|].
  intros H. cbn [trimStart]. destruct (is_whitespace c); [|done].
  simpl in H. apply andb_prop in H as [_ H]. by apply IH.
Qed.

Lemma all_dot_trimEnd (s : string) :
  all_dot s = true → all_dot (trimEnd s) = true.
Proof.
  induction s as [|c s IH]; [done|].
  intros H. simpl in H. apply andb_prop in H as [Hc Hs].
  specialize (IH Hs). cbn [trimEnd].
  destruct (trimEnd s) as [|c' r'].
  - destruct (is_whitespace c); [done|]. simpl. by rewrite Hc.
  - cbn [all_dot]. cbn [all_dot] in IH. by rewrite Hc, IH.
Qed.

Lemma all_dot_trim (s : string) : all_dot s = true → all_dot (trim s) = true.
Proof. intros H. by apply all_dot_trimEnd, all_dot_trimStart. Qed.

(** A text that starts with ["at "] is that prefix and a rest. *)
Lemma startsWith_at (t : string) :
  startsWith "at " t = true → ∃ rest, t = "at " +:+ rest.
Proof.
  unfold startsWith. intros H.
  destruct t as [|a [|b [|c rest]]]; cbn [String.prefix] in H; try done.
  - by destruct (ascii_dec "a" a).
  - destruct (ascii_dec "a" a); [|done]. by destruct (ascii_dec "t" b).
  - destruct (ascii_dec "a" a) as [<-|]; [|done].
    destruct (ascii_dec "t" b) as [<-|]; [|done].
    destruct (ascii_dec " " c) as [<-|]; [|done].
    by exists rest.
Qed.

(** The last pattern accepts every trimmed line that starts with ["at "]
    and has no line terminator inside. *)
Lemma match4_at (line : string) :
  all_dot (trim line) = true → startsWith "at " (trim line) = true →
  match4 (trim line) ≠ None.
Proof.
  intros Hdot Hat.
  destruct (startsWith_at _ Hat) as [rest Hrest].
  assert (rest ≠ EmptyString) as Hne.
  { intros ->. pose proof (trimEnd_idem (trimStart line)) as Hid.
    fold (trim line) in Hid. rewrite Hrest in Hid. done. }
  rewrite Hrest in Hdot |- *.
  change ("at " +:+ rest) with (String "a" (String "t" (String " " rest))) in *.
  cbn [all_dot] in Hdot.
  repeat (apply andb_prop in Hdot as [_ Hdot]).
  unfold match4. cbn [lit]. cbn [Ascii.eqb Bool.eqb]. cbn [plus_greedy].
  change (re_space " ") with true. cbv iota.
  assert (plus_greedy re_dot "" rest (fun g1 s => eos s g1) ≠ None) as Hk.
  { apply greedy_dot_all; done. }
  destruct (plus_greedy re_space _ rest _); [done|].
  exact Hk.
Qed.

Lemma parseLine_at (line : string) :
  all_dot (trim line) = true →
  (is_Some (parseLine line) ↔ startsWith "at " (trim line) = true).
Proof.
  intros Hdot. unfold parseLine. cbv zeta.
  destruct (startsWith "at " (trim line)) eqn:Hat; cbn [negb].
  - split; [done|intros _].
    pose proof (match4_at line Hdot Hat) as H4.
    destruct (match1 (trim line)) as [[[[??]?]?]|]; [by eexists|].
    destruct (match2 (trim line)) as [[[??]?]|]; [by eexists|].
    destruct (match3 (trim line)) as [[??]|]; [by eexists|].
    destruct (match4 (trim line)); [by eexists|done].
  - split; [by intros [??]|done].
Qed.

(** The lines of a text without carriage return hold no line terminator. *)
Lemma split_lines_dot (s cur : string) :
  no_cr s = true → all_dot cur = true →
  Forall (fun l => all_dot l = true) (split_lines cur s).
Proof.
  revert cur. induction s as [|c s IH]; intros cur Hs Hcur.
  - by constructor.
  - simpl in Hs. apply andb_prop in Hs as [Hc Hs].
    cbn [split_lines]. destruct (code c =? 10)%N eqn:Hlf.
    + constructor; [done|]. by apply IH.
    + apply IH; [done|]. rewrite all_dot_app, Hcur. simpl.
      unfold re_dot. rewrite Hlf. by destruct (code c =? 13)%N.
Qed.

Lemma omap_parseLine (ls : list string) :
  Forall (fun l => all_dot l = true) ls →
  Forall2 (fun l f => parseLine l = Some f)
          (filter (fun l => startsWith "at " (trim l) = true) ls)
          (omap parseLine ls).
Proof.
  induction 1 as [|l ls Hl _ IH]; [constructor|].
  pose proof (parseLine_at l (all_dot_trim _ Hl)) as Hiff.
  cbn [omap list_omap]. rewrite filter_cons.
  destruct (decide (startsWith "at " (trim l) = true)) as [Hat|Hat].
  - destruct (proj2 Hiff Hat) as [f Hf]. rewrite Hf. by constructor.
  - destruct (parseLine l) as [f|] eqn:Hf; [|done].
    destruct Hat. apply Hiff. by eexists.
Qed.

(** X25. A line that holds no line terminator after trimming gives a stack
    frame exactly when it starts with ["at "]: the four patterns of
    [parseStackTrace] leave no such line out. *)
Theorem at_line_gives_frame (line : string) :
  all_dot (trim line) = true →
  (is_Some (parseLine line) ↔ startsWith "at " (trim line) = true).
Proof. apply parseLine_at. Qed.

Lemma at_line_gives_frame_witness :
  all_dot (trim "   at <anonymous>  ") = true ∧
  (is_Some (parseLine "   at <anonymous>  ") ↔
   startsWith "at " (trim "   at <anonymous>  ") = true).
Proof. split; [reflexivity|]. by apply (at_line_gives_frame "   at <anonymous>  "). Defined.

(** X26. For a stack without carriage returns, [parseStackTrace] returns
    one frame for each line that starts, once trimmed, with ["at "], in
    the order of the lines, and nothing else. *)
Theorem frames_follow_at_lines (s : string) :
  no_cr s = true →
  Forall2 (fun l f => parseLine l = Some f)
          (frameLines s) (parseStackTrace (Some s)).
Proof.
  intros Hs. unfold frameLines, parseStackTrace.
  destruct s as [|c s]; [by vm_compute; constructor|].
  by apply omap_parseLine, split_lines_dot.
Qed.

Lemma frames_follow_at_lines_witness :
  no_cr withStatusStack = true ∧
  Forall2 (fun l f => parseLine l = Some f)
          (frameLines withStatusStack)
          (parseStackTrace (Some withStatusStack)).
Proof.
  split; [reflexivity|].
  by apply (frames_follow_at_lines withStatusStack).
Defined.

(** A carriage return inside a line defeats every pattern, though the line
    starts with ["at "]. *)
Example carriage_return_inside :
  let line := "at f" +:+ String (ascii_of_N 13) "" +:+ "g" in
  startsWith "at " (trim line) = true ∧ parseLine line = None.
Proof. by vm_compute. Qed.

(** The frames of the stack of [withStatus]. *)
Example frames_of_withStatus :
  stackFrames (e_stack withStatus) = Ok
  [ mkFrame (Some "/app/server.js") (Some "handler") (Some 10) (Some 5);
    mkFrame None (Some "<anonymous>") None None ].
Proof. by vm_compute. Qed.

Section Causes.
Variable JSON_stringify : gmap nat object → value → result (option string).
Variable exponential : Z → string.


End Causes.


(** A [code] that the error inherits is put into the metadata, next to
    nothing else. *)
Example inherited_code_in_metadata :
  errorMetadata withInheritedCode = Some {[ "code" := VStr "E_HTTP" ]}.
Proof. by vm_compute. Qed.

(** X28. The metadata of a serialized [Error] never holds [name],
    [message], [stack] or [cause], and holds every other own property of
    the error with its value. *)
Theorem metadata_leaves_out_standard_props (e : ErrorObject) (k : string) :
  k ∈ standardProps →
  (∀ m, errorMetadata e = Some m → m !! k = None) ∧
  (∀ k' v, k' ∉ standardProps → e_props e !! k' = Some v →
     ∃ m, errorMetadata e = Some m ∧ m !! k' = Some v).
Proof.
  intros Hk. unfold errorMetadata. cbv zeta.
  set (m0 := filter (fun kv => bool_decide (kv.1 ∉ standardProps)) (e_props e)).
  assert (Hstd : m0 !! k = None).
  { apply map_lookup_filter_None. right. intros x _. simpl.
    intros Hx. apply bool_decide_unpack in Hx. done. }
  assert (Hkeep : ∀ k' v, k' ∉ standardProps → e_props e !! k' = Some v →
                          m0 !! k' = Some v).
  { intros k' v Hk' Hv. apply map_lookup_filter_Some. split; [done|].
    simpl. by apply bool_decide_pack. }
  assert (Hnot : "code" ∉ standardProps).
  { apply (bool_decide_unpack _). by vm_compute. }
  assert (Hcode : k ≠ "code") by (by intros ->).
  set (m1 := if has e "code" then <["code" := read e "code"]> m0 else m0).
  split.
  - intros m Hm. case_bool_decide; [done|]. injection Hm as <-. subst m1.
    destruct (has e "code"); [by rewrite lookup_insert_ne|done].
  - intros k' v Hk' Hv. pose proof (Hkeep _ _ Hk' Hv) as Hm0.
    assert (m1 !! k' = Some v) as Hm1.
    { subst m1. destruct (has e "code"); [|done].
      destruct (decide (k' = "code")) as [->|Hne].
      - rewrite lookup_insert_eq. unfold read. by rewrite Hv.
      - by rewrite lookup_insert_ne. }
    case_bool_decide as He; [by rewrite He in Hm1|by eexists].
Qed.

Lemma metadata_leaves_out_standard_props_witness :
  "name" ∈ standardProps ∧
  (∀ m, errorMetadata withStatus = Some m → m !! "name" = None) ∧
  (∀ k' v, k' ∉ standardProps → e_props withStatus !! k' = Some v →
     ∃ m, errorMetadata withStatus = Some m ∧ m !! k' = Some v).
Proof.
  split; [by apply list_elem_of_here|].
  apply (metadata_leaves_out_standard_props withStatus "name").
  by apply list_elem_of_here.
Defined.

End ErrorSerializerMore.
